(** * Widevine encryption key source

    A shallow embedding of [media/base/widevine_encryption_key_source.cc]:
    the signed key request, the decoding of the server reply, the
    extraction of the per-track keys, the retry loop with exponential
    backoff and the fetch-once key lookup.

    C++ strings are [string]s (sequences of 8-bit characters), byte vectors
    are [list byte], the JSON tree of [base/values.h] is the inductive
    [Value], [std::map] is stdpp's [gmap].  A method that writes through a
    pointer returns what it wrote; the object's members and the calls on
    the collaborators (posts, sleeps, signatures) are state passed in and
    out.  The callers of one object are taken one after the other, so the
    lock of [GetKey] has no part.  Logging is left out, and so are the
    assertions that a pointer argument is not null.

    The collaborators the file only calls (Base64, the JSON reader and
    writer, the signer, the HTTP fetcher, the track labels, the pssh box
    builder) are the fields of four classes, and every property is proved
    for all of them; a reference instance of each is given further down and
    used to run the model on concrete wire documents. *)

From Stdlib Require Import ZArith String Ascii Strings.Byte.
From stdpp Require Import base gmap strings list fin_maps.

Open Scope string_scope.
Open Scope list_scope.
Open Scope Z_scope.

(** ** Values of [base/values.h] *)

(** Modelled from the spec: the JSON tree ([base::Value], declared in
    base/values.h) the reader produces and the writer consumes.  A
    dictionary is a map with unique string keys, a list is ordered.
    Numbers with a fraction and binary blobs, which no document of this
    protocol holds, are left out. *)
#[warnings="-register-all"]
Inductive Value : Type :=
  | NullValue
  | BooleanValue (b : bool)
  | IntegerValue (z : Z)
  | StringValue (s : string)
  | DictionaryValue (d : gmap string Value)
  | ListValue (l : list Value).

Module base.

(** [Value::GetAsDictionary]. *)
Definition GetAsDictionary (v : Value) : option (gmap string Value) :=
  match v with DictionaryValue d => Some d | _ => None end.

(** [DictionaryValue::GetString]: the key is present and holds a string.
    (The C++ method reads its argument as a path of keys separated by
    dots; the keys this file passes have no dot.) *)
Definition GetString (d : gmap string Value) (key : string) : option string :=
  match d !! key with Some (StringValue s) => Some s | _ => None end.

(** [DictionaryValue::GetList]. *)
Definition GetList (d : gmap string Value) (key : string) : option (list Value) :=
  match d !! key with Some (ListValue l) => Some l | _ => None end.

(** [ListValue::GetSize]. *)
Definition GetSize (l : list Value) : Z := Z.of_nat (length l).

(** [ListValue::GetDictionary]: out of range or not a dictionary fails. *)
Definition GetDictionary (l : list Value) (index : nat) : option (gmap string Value) :=
  match l !! index with Some (DictionaryValue d) => Some d | _ => None end.

(** [DictionaryValue::SetString], [DictionaryValue::Set]. *)
Definition SetString (key value : string) (d : gmap string Value) : gmap string Value :=
  <[key := StringValue value]> d.
Definition Set_ (key : string) (value : Value) (d : gmap string Value) : gmap string Value :=
  <[key := value]> d.

(** [ListValue::Append], [ListValue::AppendString]. *)
Definition Append (v : Value) (l : list Value) : list Value := l ++ [v].
Definition AppendString (s : string) (l : list Value) : list Value := l ++ [StringValue s].

End base.

(** ** Status, track types, keys *)

Module error.
(** Modelled from the spec: the codes of [media/base/status.h] this file
    produces ([INTERNAL_ERROR], [SERVER_ERROR]) or may receive from the
    transport. *)
Inductive Code : Set :=
  | OK | UNKNOWN | CANCELLED | INVALID_ARGUMENT | HTTP_FAILURE | TIME_OUT
  | SERVER_ERROR | INTERNAL_ERROR.
End error.

#[global] Instance Code_eq_dec : EqDecision error.Code.
Proof. solve_decision. Defined.

Record Status : Type := MkStatus { error_code : error.Code; error_message : string }.

Module Status.
(** [Status::OK], also the value of a default-constructed [Status]. *)
Definition OK : Status := MkStatus error.OK "".
Definition ok (s : Status) : bool := bool_decide (error_code s = error.OK).
End Status.

(** Modelled from the spec: [EncryptionKeySource::TrackType], three valid
    categories and the sentinel for an unrecognized label;
    [NUM_VALID_TRACK_TYPES] is the number of valid categories. *)
Inductive TrackType : Set :=
  | TRACK_TYPE_UNKNOWN | TRACK_TYPE_SD | TRACK_TYPE_HD | TRACK_TYPE_AUDIO.

Definition NUM_VALID_TRACK_TYPES : Z := 3.

#[global] Instance TrackType_eq_dec : EqDecision TrackType.
Proof. solve_decision. Defined.

Definition TrackType_to_nat (t : TrackType) : nat :=
  match t with
  | TRACK_TYPE_UNKNOWN => 0 | TRACK_TYPE_SD => 1
  | TRACK_TYPE_HD => 2 | TRACK_TYPE_AUDIO => 3
  end%nat.

Definition TrackType_of_nat (n : nat) : option TrackType :=
  match n with
  | 0 => Some TRACK_TYPE_UNKNOWN | 1 => Some TRACK_TYPE_SD
  | 2 => Some TRACK_TYPE_HD | 3 => Some TRACK_TYPE_AUDIO
  | _ => None
  end%nat.

#[global] Program Instance TrackType_countable : Countable TrackType :=
  inj_countable TrackType_to_nat TrackType_of_nat _.
Next Obligation. by intros []. Qed.

(** Modelled from the spec: [EncryptionKey] of
    media/base/encryption_key_source.h. *)
Record EncryptionKey : Type := MkEncryptionKey {
  key_id : list byte;
  key : list byte;
  pssh : list byte
}.

(** ** Constants of the file *)

Definition kLicenseStatusOK : string := "OK".
Definition kLicenseStatusTransientError : string := "INTERNAL_ERROR".
Definition kNumTransientErrorRetries : Z := 5.
Definition kFirstRetryDelayMilliseconds : Z := 1000.

(** [int64] arithmetic: the value of a product, wrapped to 64 bits. *)
Definition wrap_int64 (z : Z) : Z := (z + 2 ^ 63) mod 2 ^ 64 - 2 ^ 63.

(** ** Debug assertions

    [DCHECK] aborts the process in a build where assertions are compiled in
    and is a no-op otherwise.  A call either returns or ends in a failed
    assertion. *)
Inductive outcome (A : Type) : Type :=
  | Returned (a : A)
  | DcheckFailed.
Arguments Returned {A} a.
Arguments DcheckFailed {A}.

#[global] Instance outcome_ret : MRet outcome := fun A a => Returned a.
#[global] Instance outcome_bind : MBind outcome := fun A B f m =>
  match m with Returned a => f a | DcheckFailed => DcheckFailed end.

(** ** The object and the world it acts on *)

Record WidevineEncryptionKeySource : Type := MkSource {
  server_url_ : string;
  content_id_ : string;
  key_fetched_ : bool;
  encryption_key_map_ : gmap TrackType EncryptionKey
}.

(** One thing a collaborator observes: a document handed to the signer, a
    [Post] (url and body), a [Sleep] (milliseconds). *)
Inductive Event : Type :=
  | Signed (message : string)
  | Posted (url body : string)
  | Slept (milliseconds : Z).

(** What the collaborators observe: every [Post] (url and body), every
    [Sleep] (milliseconds) and every document handed to the signer, oldest
    first; and in [trace] the same events in the one order in which they
    happened. *)
Record World : Type := MkWorld {
  posts : list (string * string);
  sleeps : list Z;
  signed : list string;
  trace : list Event
}.

Definition initial_world : World := MkWorld [] [] [] [].

Definition record_post (url body : string) (w : World) : World :=
  MkWorld (posts w ++ [(url, body)]) (sleeps w) (signed w)
          (trace w ++ [Posted url body]).
Definition record_sleep (milliseconds : Z) (w : World) : World :=
  MkWorld (posts w) (sleeps w ++ [milliseconds]) (signed w)
          (trace w ++ [Slept milliseconds]).
Definition record_signed (message : string) (w : World) : World :=
  MkWorld (posts w) (sleeps w) (signed w ++ [message])
          (trace w ++ [Signed message]).

Definition set_encryption_key_map (m : gmap TrackType EncryptionKey)
    (this : WidevineEncryptionKeySource) : WidevineEncryptionKeySource :=
  MkSource (server_url_ this) (content_id_ this) (key_fetched_ this) m.
Definition set_key_fetched (b : bool)
    (this : WidevineEncryptionKeySource) : WidevineEncryptionKeySource :=
  MkSource (server_url_ this) (content_id_ this) b (encryption_key_map_ this).

(** ** Collaborators *)

(** The library primitives of [base/]: the build mode, Base64 and JSON.
    [Base64Decode] and [JSONReader_Read] fail with [None]. *)
Class BaseLibrary : Type := {
  DCHECK_IS_ON : bool;
  Base64Encode : string -> string;
  Base64Decode : string -> option string;
  JSONReader_Read : string -> option Value;
  JSONWriter_Write : Value -> string
}.

(** The static helpers inherited from [EncryptionKeySource]. *)
Class EncryptionKeySource : Type := {
  GetTrackTypeFromString : string -> TrackType;
  TrackTypeToString : TrackType -> string;
  PsshBoxFromPsshData : list byte -> list byte
}.

(** [RequestSigner]: [GenerateSignature] returns the signature, or [None]
    where the C++ method returns false. *)
Class RequestSigner : Type := {
  GenerateSignature : string -> option string;
  signer_name : string
}.

(** [HttpFetcher]: the reply to a [Post] is its status and the raw
    response; it may depend on how many posts were made before. *)
Class HttpFetcher : Type := {
  Post : nat -> string -> string -> Status * string
}.

Section Source.
Context `{BaseLibrary} `{EncryptionKeySource} `{RequestSigner} `{HttpFetcher}.

Definition DCHECK {A : Type} (cond : bool) (k : outcome A) : outcome A :=
  if DCHECK_IS_ON && negb cond then DcheckFailed else k.

Definition Base64StringToBytes (base64_string : string) : option (list byte) :=
  str ← Base64Decode base64_string;
  Some (list_byte_of_string str).

Definition GetKeyAndKeyId (track_dict : gmap string Value)
    : option (list byte * list byte) :=
  key_base64_string ← base.GetString track_dict "key";
  key ← Base64StringToBytes key_base64_string;
  key_id_base64_string ← base.GetString track_dict "key_id";
  key_id ← Base64StringToBytes key_id_base64_string;
  Some (key, key_id).

Definition GetPsshData (track_dict : gmap string Value)
    : outcome (option (list byte)) :=
  match base.GetList track_dict "pssh" with
  | None => Returned None
  | Some pssh_list =>
    DCHECK (bool_decide (1 = base.GetSize pssh_list))
      (Returned (
         pssh_dict ← base.GetDictionary pssh_list 0;
         drm_type ← base.GetString pssh_dict "drm_type";
         if bool_decide (drm_type ≠ "WIDEVINE") then None
         else
           pssh_data_base64_string ← base.GetString pssh_dict "data";
           Base64StringToBytes pssh_data_base64_string))
  end.

(** One round of the loop of [ExtractEncryptionKey] on the entry [track];
    [None] where the function returns false, the updated map otherwise. *)
Definition ExtractEncryptionKey_track (track : Value)
    (m : gmap TrackType EncryptionKey)
    : outcome (option (gmap TrackType EncryptionKey)) :=
  match base.GetAsDictionary track with
  | None => Returned None
  | Some track_dict =>
    match base.GetString track_dict "type" with
    | None => Returned None
    | Some track_type_str =>
      let track_type := GetTrackTypeFromString track_type_str in
      DCHECK (bool_decide (TRACK_TYPE_UNKNOWN ≠ track_type))
        match m !! track_type with
        | Some _ => Returned None
        | None =>
          match GetKeyAndKeyId track_dict with
          | None => Returned None
          | Some (key, key_id) =>
            pssh_data ← GetPsshData track_dict;
            match pssh_data with
            | None => Returned None
            | Some pssh_data =>
              Returned (Some (<[track_type :=
                MkEncryptionKey key_id key (PsshBoxFromPsshData pssh_data)]> m))
            end
          end
        end
    end
  end.

(** The loop [for (i = 0; i < tracks->GetSize(); ++i)]. *)
Fixpoint ExtractEncryptionKey_tracks (tracks : list Value)
    (m : gmap TrackType EncryptionKey)
    : outcome (bool * gmap TrackType EncryptionKey) :=
  match tracks with
  | [] => Returned (true, m)
  | track :: rest =>
    r ← ExtractEncryptionKey_track track m;
    match r with
    | None => Returned (false, m)
    | Some m' => ExtractEncryptionKey_tracks rest m'
    end
  end.

(** Returns the result, the value left in [*transient_error] and the
    key map [encryption_key_map_] as the call leaves it. *)
Definition ExtractEncryptionKey (response : string)
    (m : gmap TrackType EncryptionKey)
    : outcome (bool * bool * gmap TrackType EncryptionKey) :=
  let transient_error := false in
  match JSONReader_Read response with
  | None => Returned (false, transient_error, m)
  | Some root =>
    match base.GetAsDictionary root with
    | None => Returned (false, transient_error, m)
    | Some license_dict =>
      match base.GetString license_dict "status" with
      | None => Returned (false, transient_error, m)
      | Some license_status =>
        if bool_decide (license_status ≠ kLicenseStatusOK) then
          Returned (false,
                    bool_decide (license_status = kLicenseStatusTransientError), m)
        else
          match base.GetList license_dict "tracks" with
          | None => Returned (false, transient_error, m)
          | Some tracks =>
            if bool_decide (base.GetSize tracks >= NUM_VALID_TRACK_TYPES) then
              r ← ExtractEncryptionKey_tracks tracks m;
              Returned (r.1, transient_error, r.2)
            else Returned (false, transient_error, m)
          end
      end
    end
  end.

Definition DecodeResponse (raw_response : string) : option string :=
  root ← JSONReader_Read raw_response;
  response_dict ← base.GetAsDictionary root;
  response_base64_string ← base.GetString response_dict "response";
  Base64Decode response_base64_string.

(** The dictionary [FillRequest] builds, statement by statement. *)
Definition FillRequest_dict (content_id : string) : gmap string Value :=
  let content_id_base64_string := Base64Encode content_id in
  let request_dict := base.SetString "content_id" content_id_base64_string ∅ in
  let request_dict := base.SetString "policy" "" request_dict in
  let tracks := [] in
  let track_sd := base.SetString "type" "SD" ∅ in
  let tracks := base.Append (DictionaryValue track_sd) tracks in
  let track_hd := base.SetString "type" "HD" ∅ in
  let tracks := base.Append (DictionaryValue track_hd) tracks in
  let track_audio := base.SetString "type" "AUDIO" ∅ in
  let tracks := base.Append (DictionaryValue track_audio) tracks in
  let request_dict := base.Set_ "tracks" (ListValue tracks) request_dict in
  let drm_types := base.AppendString "WIDEVINE" [] in
  base.Set_ "drm_types" (ListValue drm_types) request_dict.

Definition FillRequest (content_id : string) : string :=
  JSONWriter_Write (DictionaryValue (FillRequest_dict content_id)).

(** The dictionary [SignRequest] builds once the signature is there. *)
Definition SignRequest_dict (request signature : string) : gmap string Value :=
  let request_base64_string := Base64Encode request in
  let signature_base64_string := Base64Encode signature in
  let signed_request_dict := base.SetString "request" request_base64_string ∅ in
  let signed_request_dict :=
    base.SetString "signature" signature_base64_string signed_request_dict in
  base.SetString "signer" signer_name signed_request_dict.

(** Returns the status and what was written to [*signed_request], if
    anything. *)
Definition SignRequest (request : string) (w : World)
    : Status * option string * World :=
  let w := record_signed request w in
  match GenerateSignature request with
  | None => (MkStatus error.INTERNAL_ERROR "Signature generation failed.", None, w)
  | Some signature =>
    (Status.OK,
     Some (JSONWriter_Write (DictionaryValue (SignRequest_dict request signature))),
     w)
  end.

(** The retry loop [for (int i = 0; i < kNumTransientErrorRetries; ++i)]
    of [FetchKeys], over the values [i] still to run. *)
Fixpoint FetchKeys_loop (indices : list Z) (message : string)
    (sleep_duration : Z) (this : WidevineEncryptionKeySource) (w : World)
    : outcome (Status * WidevineEncryptionKeySource * World) :=
  match indices with
  | [] =>
    Returned (MkStatus error.SERVER_ERROR
                "Failed to recover from server internal error.", this, w)
  | i :: rest =>
    let '(status, raw_response) :=
      Post (length (posts w)) (server_url_ this) message in
    let w := record_post (server_url_ this) message w in
    if negb (Status.ok status) then Returned (status, this, w)
    else
      match DecodeResponse raw_response with
      | None =>
        Returned (MkStatus error.SERVER_ERROR
                    ("Failed to decode response '" +:+ raw_response +:+ "'."),
                  this, w)
      | Some response =>
        '(extracted, transient_error, m) ←
          ExtractEncryptionKey response (encryption_key_map_ this);
        let this := set_encryption_key_map m this in
        if (extracted : bool) then Returned (Status.OK, this, w)
        else if negb transient_error then
          Returned (MkStatus error.SERVER_ERROR
                      ("Failed to extract encryption key from '"
                         +:+ response +:+ "'."),
                    this, w)
        else if bool_decide (i ≠ kNumTransientErrorRetries - 1) then
          FetchKeys_loop rest message (wrap_int64 (sleep_duration * 2)) this
            (record_sleep sleep_duration w)
        else FetchKeys_loop rest message sleep_duration this w
      end
  end.

Definition FetchKeys (this : WidevineEncryptionKeySource) (w : World)
    : outcome (Status * WidevineEncryptionKeySource * World) :=
  let request := FillRequest (content_id_ this) in
  let '(status, message, w) := SignRequest request w in
  if negb (Status.ok status) then Returned (status, this, w)
  else
    FetchKeys_loop (seqZ 0 kNumTransientErrorRetries) (default "" message)
      kFirstRetryDelayMilliseconds this w.

(** Returns the status, the values assigned to [*key] in order (none when
    the caller's object is left alone), the object and the world. *)
Definition GetKey (track_type : TrackType)
    (this : WidevineEncryptionKeySource) (w : World)
    : outcome (Status * list EncryptionKey * WidevineEncryptionKeySource * World) :=
  DCHECK (bool_decide (track_type = TRACK_TYPE_SD)
          || bool_decide (track_type = TRACK_TYPE_HD)
          || bool_decide (track_type = TRACK_TYPE_AUDIO))
    ('(status, this, w) ← (if negb (key_fetched_ this) then
            '(status, this, w) ← FetchKeys this w;
            Returned (status,
                      if Status.ok status then set_key_fetched true this else this,
                      w)
          else Returned (Status.OK, this, w));
     if negb (Status.ok status) then Returned (status, [], this, w)
     else
       match encryption_key_map_ this !! track_type with
       | None =>
         Returned (MkStatus error.INTERNAL_ERROR
                     ("Cannot find key of type " +:+ TrackTypeToString track_type),
                   [], this, w)
       | Some encryption_key => Returned (Status.OK, [encryption_key], this, w)
       end).

(** The caller's [EncryptionKey] after a call that made the assignments
    [writes] to it. *)
Definition key_after (before : EncryptionKey) (writes : list EncryptionKey)
    : EncryptionKey :=
  default before (last writes).

(** Successive calls of [GetKey] on one object; the statuses in order. *)
Fixpoint GetKey_calls (track_types : list TrackType)
    (this : WidevineEncryptionKeySource) (w : World)
    : outcome (list Status * WidevineEncryptionKeySource * World) :=
  match track_types with
  | [] => Returned ([], this, w)
  | track_type :: rest =>
    '(status, _, this, w) ← GetKey track_type this w;
    '(statuses, this, w) ← GetKey_calls rest this w;
    Returned (status :: statuses, this, w)
  end.

(** An outcome is either a failed assertion, in a build that has them, or
    a result with the property [P]. *)
Definition returns {A : Type} (P : A -> Prop) (o : outcome A) : Prop :=
  match o with
  | Returned a => P a
  | DcheckFailed => DCHECK_IS_ON = true
  end.

(** ** Reading the specification *)

(** The request document as the specification writes it. *)
Definition request_document (content_id : string) : Value :=
  DictionaryValue
    {[ "content_id" := StringValue (Base64Encode content_id);
       "policy" := StringValue "";
       "tracks" := ListValue
                     [DictionaryValue {[ "type" := StringValue "SD" ]};
                      DictionaryValue {[ "type" := StringValue "HD" ]};
                      DictionaryValue {[ "type" := StringValue "AUDIO" ]}];
       "drm_types" := ListValue [StringValue "WIDEVINE"] ]}.

(** A license document: the reader yields a dictionary with a string
    [status]. *)
Definition license_status_of (response status : string) : Prop :=
  exists license_dict,
    JSONReader_Read response = Some (DictionaryValue license_dict)
    /\ base.GetString license_dict "status" = Some status.

(** A reply of the transport that is a success and decodes to a license
    document with the transient status. *)
Definition transient_reply (reply : Status * string) : Prop :=
  Status.ok reply.1 = true
  /\ exists response,
       DecodeResponse reply.2 = Some response
       /\ license_status_of response kLicenseStatusTransientError.

(** A reply that is a transport failure or does not decode. *)
Definition broken_reply (reply : Status * string) : Prop :=
  Status.ok reply.1 = false \/ DecodeResponse reply.2 = None.

(** The status [FetchKeys] returns on a broken reply. *)
Definition broken_reply_status (reply : Status * string) : Status :=
  if Status.ok reply.1 then
    MkStatus error.SERVER_ERROR
      ("Failed to decode response '" +:+ reply.2 +:+ "'.")
  else reply.1.

(** The body [FetchKeys] posts once the signer has given [signature]. *)
Definition signed_message (this : WidevineEncryptionKeySource)
    (signature : string) : string :=
  JSONWriter_Write
    (DictionaryValue (SignRequest_dict (FillRequest (content_id_ this)) signature)).

(** The first [k] delays of the loop that starts with [sleep_duration]. *)
Fixpoint delays (k : nat) (sleep_duration : Z) : list Z :=
  match k with
  | O => []
  | S k => sleep_duration :: delays k (wrap_int64 (sleep_duration * 2))
  end.

(** The delay the loop has reached after [k] sleeps. *)
Fixpoint delay_after (k : nat) (sleep_duration : Z) : Z :=
  match k with
  | O => sleep_duration
  | S k => delay_after k (wrap_int64 (sleep_duration * 2))
  end.

(** The sleeps between the attempts, in milliseconds. *)
Definition backoff_schedule : list Z := [1000; 2000; 4000; 8000].

(** [k] rounds of the loop that go on to the next one: a post and then a
    sleep, the delay doubling from [sleep_duration] on. *)
Fixpoint rounds (k : nat) (url body : string) (sleep_duration : Z)
    : list Event :=
  match k with
  | O => []
  | S k =>
    Posted url body :: Slept sleep_duration
      :: rounds k url body (wrap_int64 (sleep_duration * 2))
  end.

(** [n] attempts in the order of time: [n] posts of [body] to [url] with
    one sleep between two consecutive posts, for the delays [pauses] in
    this order, nothing before the first post and nothing after the last. *)
Fixpoint attempts (n : nat) (url body : string) (pauses : list Z)
    : list Event :=
  match n with
  | O => []
  | S n =>
    Posted url body ::
      match n, pauses with
      | S _, pause :: pauses => Slept pause :: attempts n url body pauses
      | _, _ => attempts n url body []
      end
  end.

(** What is wrong with the [pssh] field of a track entry: no list, an
    empty list, a first entry that is no dictionary, a [drm_type] that is
    missing or not [WIDEVINE], [data] that is missing or not Base64. *)
Inductive pssh_defect (track_dict : gmap string Value) : Prop :=
  | pssh_list_missing :
    base.GetList track_dict "pssh" = None -> pssh_defect track_dict
  | pssh_list_empty :
    base.GetList track_dict "pssh" = Some [] -> pssh_defect track_dict
  | pssh_entry_not_dictionary first others :
    base.GetList track_dict "pssh" = Some (first :: others) ->
    base.GetAsDictionary first = None -> pssh_defect track_dict
  | pssh_drm_type_missing pssh_dict others :
    base.GetList track_dict "pssh" = Some (DictionaryValue pssh_dict :: others) ->
    base.GetString pssh_dict "drm_type" = None -> pssh_defect track_dict
  | pssh_drm_type_other pssh_dict others drm_type :
    base.GetList track_dict "pssh" = Some (DictionaryValue pssh_dict :: others) ->
    base.GetString pssh_dict "drm_type" = Some drm_type ->
    drm_type <> "WIDEVINE" -> pssh_defect track_dict
  | pssh_data_missing pssh_dict others :
    base.GetList track_dict "pssh" = Some (DictionaryValue pssh_dict :: others) ->
    base.GetString pssh_dict "data" = None -> pssh_defect track_dict
  | pssh_data_malformed pssh_dict others data :
    base.GetList track_dict "pssh" = Some (DictionaryValue pssh_dict :: others) ->
    base.GetString pssh_dict "data" = Some data ->
    Base64Decode data = None -> pssh_defect track_dict.

(** The entry [track] of the tracks list carries the key [k] for
    [track_type]: its label, its [key] and [key_id] fields decoded, its
    pssh data in a box. *)
Definition track_yields (track : Value) (track_type : TrackType)
    (k : EncryptionKey) : Prop :=
  exists track_dict track_type_str key_bytes key_id_bytes pssh_data,
    track = DictionaryValue track_dict
    /\ base.GetString track_dict "type" = Some track_type_str
    /\ track_type = GetTrackTypeFromString track_type_str
    /\ GetKeyAndKeyId track_dict = Some (key_bytes, key_id_bytes)
    /\ GetPsshData track_dict = Returned (Some pssh_data)
    /\ k = MkEncryptionKey key_id_bytes key_bytes (PsshBoxFromPsshData pssh_data).

(** ** The rest of the object's life *)

(** The constructor: nothing fetched, no key.  (The signer and the fetcher
    it stores are the collaborators of the section.) *)
Definition WidevineEncryptionKeySource_new (server_url content_id : string)
    : WidevineEncryptionKeySource :=
  MkSource server_url content_id false ∅.

(** The objects a program can hold: a constructed one, and what [GetKey]
    leaves of one. *)
Inductive reachable : WidevineEncryptionKeySource -> Prop :=
  | reachable_new server_url content_id :
    reachable (WidevineEncryptionKeySource_new server_url content_id)
  | reachable_GetKey track_type this w status writes this' w' :
    reachable this ->
    GetKey track_type this w = Returned (status, writes, this', w') ->
    reachable this'.

(** What keeps a response from being a license with its tracks: no JSON
    text, no object, no string [status], with the status [OK] no [tracks]
    list, or a list of fewer than three entries. *)
Inductive license_defect (response : string) : Prop :=
  | license_not_json :
    JSONReader_Read response = None -> license_defect response
  | license_not_dictionary root :
    JSONReader_Read response = Some root ->
    base.GetAsDictionary root = None -> license_defect response
  | license_status_missing license_dict :
    JSONReader_Read response = Some (DictionaryValue license_dict) ->
    base.GetString license_dict "status" = None -> license_defect response
  | license_tracks_missing license_dict :
    JSONReader_Read response = Some (DictionaryValue license_dict) ->
    base.GetString license_dict "status" = Some kLicenseStatusOK ->
    base.GetList license_dict "tracks" = None -> license_defect response
  | license_tracks_too_few license_dict tracks :
    JSONReader_Read response = Some (DictionaryValue license_dict) ->
    base.GetString license_dict "status" = Some kLicenseStatusOK ->
    base.GetList license_dict "tracks" = Some tracks ->
    (length tracks < 3)%nat -> license_defect response.

(** What is wrong with a track entry before its pssh field is looked at:
    no dictionary, no string [type], a [key] or a [key_id] that is missing
    or not Base64. *)
Inductive track_defect (track : Value) : Prop :=
  | track_not_dictionary :
    base.GetAsDictionary track = None -> track_defect track
  | track_type_missing track_dict :
    track = DictionaryValue track_dict ->
    base.GetString track_dict "type" = None -> track_defect track
  | track_key_missing track_dict :
    track = DictionaryValue track_dict ->
    base.GetString track_dict "key" = None -> track_defect track
  | track_key_malformed track_dict key_base64_string :
    track = DictionaryValue track_dict ->
    base.GetString track_dict "key" = Some key_base64_string ->
    Base64Decode key_base64_string = None -> track_defect track
  | track_key_id_missing track_dict :
    track = DictionaryValue track_dict ->
    base.GetString track_dict "key_id" = None -> track_defect track
  | track_key_id_malformed track_dict key_id_base64_string :
    track = DictionaryValue track_dict ->
    base.GetString track_dict "key_id" = Some key_id_base64_string ->
    Base64Decode key_id_base64_string = None -> track_defect track.

(** The envelope as the specification writes it. *)
Definition envelope_document (request signature : string) : Value :=
  DictionaryValue
    {[ "request" := StringValue (Base64Encode request);
       "signature" := StringValue (Base64Encode signature);
       "signer" := StringValue signer_name ]}.

End Source.

Arguments GetPsshData : simpl never.
Arguments GetKeyAndKeyId : simpl never.
Arguments ExtractEncryptionKey_track : simpl never.
Arguments ExtractEncryptionKey : simpl never.
Arguments DecodeResponse : simpl never.
Arguments FetchKeys : simpl never.
Arguments GetKey : simpl never.

(** ** Reference collaborators

    A concrete instance of every collaborator, to run the model on wire
    documents: RFC 4648 Base64 with padding, a JSON writer and reader for
    the tree above, the track labels of the request, a signer and scripted
    transports. *)
Module Reference.

Definition b64_alphabet : list ascii :=
  list_ascii_of_string
    "ABCDEFGHIJKLMNOPQRSTUVWXYZabcdefghijklmnopqrstuvwxyz0123456789+/".

Definition b64_pad : ascii := "="%char.

(** The character of a 6-bit group. *)
Definition b64_char (n : N) : ascii :=
  default b64_pad (b64_alphabet !! N.to_nat n).

Fixpoint b64_find (c : ascii) (alphabet : list ascii) (n : N) : option N :=
  match alphabet with
  | [] => None
  | a :: rest => if Ascii.eqb a c then Some n else b64_find c rest (N.succ n)
  end.

(** The 6-bit group of a character of the alphabet. *)
Definition b64_index (c : ascii) : option N := b64_find c b64_alphabet 0%N.

Fixpoint b64_encode (bytes : list ascii) : list ascii :=
  match bytes with
  | [] => []
  | [a] =>
    let x := N_of_ascii a in
    [b64_char (x / 4); b64_char (x mod 4 * 16); b64_pad; b64_pad]
  | [a; b] =>
    let x := N_of_ascii a in
    let y := N_of_ascii b in
    [b64_char (x / 4); b64_char (x mod 4 * 16 + y / 16);
     b64_char (y mod 16 * 4); b64_pad]
  | a :: b :: c :: rest =>
    let x := N_of_ascii a in
    let y := N_of_ascii b in
    let z := N_of_ascii c in
    b64_char (x / 4) :: b64_char (x mod 4 * 16 + y / 16)
      :: b64_char (y mod 16 * 4 + z / 64) :: b64_char (z mod 64)
      :: b64_encode rest
  end%N.

(** Strict decoding: groups of four characters, padding only in the last
    group, no character outside the alphabet. *)
Fixpoint b64_decode (chars : list ascii) : option (list ascii) :=
  match chars with
  | [] => Some []
  | c1 :: c2 :: c3 :: c4 :: rest =>
    s1 ← b64_index c1;
    s2 ← b64_index c2;
    let b1 := ascii_of_N (s1 * 4 + s2 / 16) in
    match rest with
    | [] =>
      if Ascii.eqb c4 b64_pad then
        if Ascii.eqb c3 b64_pad then Some [b1]
        else
          s3 ← b64_index c3;
          Some [b1; ascii_of_N (s2 mod 16 * 16 + s3 / 4)]
      else
        s3 ← b64_index c3;
        s4 ← b64_index c4;
        Some [b1; ascii_of_N (s2 mod 16 * 16 + s3 / 4);
              ascii_of_N (s3 mod 4 * 64 + s4)]
    | _ :: _ =>
      s3 ← b64_index c3;
      s4 ← b64_index c4;
      tail ← b64_decode rest;
      Some (b1 :: ascii_of_N (s2 mod 16 * 16 + s3 / 4)
               :: ascii_of_N (s3 mod 4 * 64 + s4) :: tail)
    end
  | _ => None
  end%N.

Definition Base64Encode (s : string) : string :=
  string_of_list_ascii (b64_encode (list_ascii_of_string s)).

Definition Base64Decode (s : string) : option string :=
  string_of_list_ascii <$> b64_decode (list_ascii_of_string s).

(** *** JSON text *)

Definition dquote : ascii := "034"%char.
Definition backslash : ascii := "092"%char.

Fixpoint json_escape (s : string) : string :=
  match s with
  | EmptyString => EmptyString
  | String c rest =>
    if Ascii.eqb c dquote || Ascii.eqb c backslash
    then String backslash (String c (json_escape rest))
    else String c (json_escape rest)
  end.

Definition json_quote (s : string) : string :=
  String dquote (json_escape s +:+ String dquote EmptyString).

Fixpoint json_join (items : list string) : string :=
  match items with
  | [] => ""
  | [item] => item
  | item :: rest => item +:+ "," +:+ json_join rest
  end.

Fixpoint decimal_digits (fuel : nat) (n : N) (acc : string) : string :=
  match fuel with
  | O => acc
  | S fuel =>
    let acc := String (ascii_of_N (48 + n mod 10)) acc in
    if (n <? 10)%N then acc else decimal_digits fuel (n / 10) acc
  end%N.

Definition decimal (z : Z) : string :=
  let n := Z.abs_N z in
  let digits := decimal_digits (S (N.to_nat (N.log2 n))) n "" in
  if z <? 0 then "-" +:+ digits else digits.

(** The members of an object are written in the order of their keys, as
    an ordered map iterates. *)
Fixpoint insert_member (member : string * string)
    (members : list (string * string)) : list (string * string) :=
  match members with
  | [] => [member]
  | m :: rest =>
    if String.leb member.1 m.1 then member :: members
    else m :: insert_member member rest
  end.

Definition json_member (member : string * string) : string :=
  json_quote member.1 +:+ ":" +:+ member.2.

Fixpoint JSONWriter_Write (v : Value) : string :=
  match v with
  | NullValue => "null"
  | BooleanValue b => if b then "true" else "false"
  | IntegerValue z => decimal z
  | StringValue s => json_quote s
  | DictionaryValue d =>
    "{" +:+ json_join (json_member <$>
              map_fold (fun k x members =>
                          insert_member (k, JSONWriter_Write x) members) [] d)
      +:+ "}"
  | ListValue l => "[" +:+ json_join (map JSONWriter_Write l) +:+ "]"
  end.

Definition is_char (c : ascii) (text : string) : bool :=
  match text with
  | String d EmptyString => Ascii.eqb c d
  | _ => false
  end.

Definition is_space (c : ascii) : bool :=
  is_char c " " || Ascii.eqb c "009" || Ascii.eqb c "010" || Ascii.eqb c "013".

Fixpoint skip_space (text : list ascii) : list ascii :=
  match text with
  | c :: rest => if is_space c then skip_space rest else text
  | [] => []
  end.

Definition unescape (c : ascii) : option ascii :=
  if Ascii.eqb c dquote || Ascii.eqb c backslash || is_char c "/" then Some c
  else if is_char c "n" then Some "010"%char
  else if is_char c "r" then Some "013"%char
  else if is_char c "t" then Some "009"%char
  else None.

(** The text after an opening quote: the string and what follows its
    closing quote. *)
Fixpoint read_string (text : list ascii) : option (string * list ascii) :=
  match text with
  | [] => None
  | c :: rest =>
    if Ascii.eqb c dquote then Some (EmptyString, rest)
    else if Ascii.eqb c backslash then
      match rest with
      | [] => None
      | e :: rest =>
        u ← unescape e;
        '(s, rest) ← read_string rest;
        Some (String u s, rest)
      end
    else
      '(s, rest) ← read_string rest;
      Some (String c s, rest)
  end.

Definition digit (c : ascii) : option N :=
  let n := N_of_ascii c in
  if ((48 <=? n) && (n <=? 57))%N then Some (n - 48)%N else None.

Fixpoint read_digits (text : list ascii) (acc : N) : N * list ascii :=
  match text with
  | c :: rest =>
    match digit c with
    | Some d => read_digits rest (10 * acc + d)%N
    | None => (acc, text)
    end
  | [] => (acc, [])
  end.

Fixpoint strip_prefix (word text : list ascii) : option (list ascii) :=
  match word, text with
  | [], _ => Some text
  | a :: word, c :: text => if Ascii.eqb a c then strip_prefix word text else None
  | _ :: _, [] => None
  end.

Definition read_word (word : string) (v : Value) (text : list ascii)
    : option (Value * list ascii) :=
  rest ← strip_prefix (list_ascii_of_string word) text;
  Some (v, rest).

Section Containers.
Variable read_value : list ascii -> option (Value * list ascii).

(** After [[] and a first non-space character that is not []]. *)
Fixpoint read_elements (fuel : nat) (text : list ascii) (acc : list Value)
    : option (Value * list ascii) :=
  match fuel with
  | O => None
  | S fuel =>
    '(v, rest) ← read_value text;
    match skip_space rest with
    | c :: rest =>
      if is_char c "," then read_elements fuel rest (acc ++ [v])
      else if is_char c "]" then Some (ListValue (acc ++ [v]), rest)
      else None
    | [] => None
    end
  end.

(** After [{] and a first non-space character that is not [}]. *)
Fixpoint read_members (fuel : nat) (text : list ascii)
    (acc : gmap string Value) : option (Value * list ascii) :=
  match fuel with
  | O => None
  | S fuel =>
    match skip_space text with
    | q :: rest =>
      if Ascii.eqb q dquote then
        '(k, rest) ← read_string rest;
        match skip_space rest with
        | c :: rest =>
          if is_char c ":" then
            '(v, rest) ← read_value rest;
            match skip_space rest with
            | c :: rest =>
              if is_char c "," then read_members fuel rest (<[k := v]> acc)
              else if is_char c "}" then
                Some (DictionaryValue (<[k := v]> acc), rest)
              else None
            | [] => None
            end
          else None
        | [] => None
        end
      else None
    | [] => None
    end
  end.
End Containers.

Fixpoint read_value (fuel : nat) (text : list ascii)
    : option (Value * list ascii) :=
  match fuel with
  | O => None
  | S fuel =>
    match skip_space text with
    | [] => None
    | c :: rest =>
      if Ascii.eqb c dquote then
        '(s, rest) ← read_string rest;
        Some (StringValue s, rest)
      else if is_char c "{" then
        match skip_space rest with
        | c' :: rest' =>
          if is_char c' "}" then Some (DictionaryValue ∅, rest')
          else read_members (read_value fuel) (length rest) rest ∅
        | [] => None
        end
      else if is_char c "[" then
        match skip_space rest with
        | c' :: rest' =>
          if is_char c' "]" then Some (ListValue [], rest')
          else read_elements (read_value fuel) (length rest) rest []
        | [] => None
        end
      else if is_char c "n" then read_word "null" NullValue (c :: rest)
      else if is_char c "t" then read_word "true" (BooleanValue true) (c :: rest)
      else if is_char c "f" then read_word "false" (BooleanValue false) (c :: rest)
      else if is_char c "-" then
        match rest with
        | d :: _ =>
          if digit d is Some _ then
            let '(n, rest) := read_digits rest 0%N in
            Some (IntegerValue (- Z.of_N n), rest)
          else None
        | [] => None
        end
      else if digit c is Some _ then
        let '(n, rest) := read_digits (c :: rest) 0%N in
        Some (IntegerValue (Z.of_N n), rest)
      else None
    end
  end.

Definition JSONReader_Read (json : string) : option Value :=
  let text := list_ascii_of_string json in
  '(v, rest) ← read_value (S (length text)) text;
  match skip_space rest with
  | [] => Some v
  | _ :: _ => None
  end.

(** *** Track labels and the pssh box *)

(** Modelled from the spec: [GetTrackTypeFromString] maps the labels of
    the request ([SD], [HD], [AUDIO]) to their track type, any other
    label to the sentinel. *)
Definition GetTrackTypeFromString (track_type_string : string) : TrackType :=
  if bool_decide (track_type_string = "SD") then TRACK_TYPE_SD
  else if bool_decide (track_type_string = "HD") then TRACK_TYPE_HD
  else if bool_decide (track_type_string = "AUDIO") then TRACK_TYPE_AUDIO
  else TRACK_TYPE_UNKNOWN.

Definition TrackTypeToString (track_type : TrackType) : string :=
  match track_type with
  | TRACK_TYPE_SD => "SD"
  | TRACK_TYPE_HD => "HD"
  | TRACK_TYPE_AUDIO => "AUDIO"
  | TRACK_TYPE_UNKNOWN => "UNKNOWN"
  end.

Definition be32 (n : N) : list byte :=
  (fun k => default x00 (Byte.of_N (n / 256 ^ k mod 256))) <$> [3; 2; 1; 0]%N.

Definition kWidevineSystemId : list byte :=
  [xed; xef; x8b; xa9; x79; xd6; x4a; xce;
   xa3; xc8; x27; xdc; xd5; x1d; x21; xed].

(** Modelled from the spec: the protection descriptor box around the
    protection-system-specific data (size, [pssh], version and flags,
    system id, data size, data). *)
Definition PsshBoxFromPsshData (pssh_data : list byte) : list byte :=
  let data_size := N.of_nat (length pssh_data) in
  be32 (32 + data_size) ++ list_byte_of_string "pssh" ++ [x00; x00; x00; x00]
    ++ kWidevineSystemId ++ be32 data_size ++ pssh_data.

(** *** Instances *)

Definition release : BaseLibrary :=
  Build_BaseLibrary false Base64Encode Base64Decode JSONReader_Read JSONWriter_Write.

Definition debug : BaseLibrary :=
  Build_BaseLibrary true Base64Encode Base64Decode JSONReader_Read JSONWriter_Write.

Definition key_source : EncryptionKeySource :=
  Build_EncryptionKeySource GetTrackTypeFromString TrackTypeToString
    PsshBoxFromPsshData.

(** A signer that always signs, and one that never does. *)
Definition signer : RequestSigner :=
  {| GenerateSignature := fun message =>
       Some ("signature-of-" +:+ Base64Encode message);
     signer_name := "reference_signer" |}.

Definition failing_signer : RequestSigner :=
  {| GenerateSignature := fun _ => None; signer_name := "failing_signer" |}.

(** A transport that answers the n-th post with the n-th scripted reply
    and fails once the script is over, and one that always gives the
    same reply. *)
Definition scripted (replies : list (Status * string)) : HttpFetcher :=
  {| Post := fun n _ _ =>
       default (MkStatus error.HTTP_FAILURE "connection refused", "")
               (replies !! n) |}.

Definition constant (reply : Status * string) : HttpFetcher :=
  {| Post := fun _ _ _ => reply |}.

(** *** Wire documents *)

Definition pssh_dict (drm_type data : string) : gmap string Value :=
  {[ "drm_type" := StringValue drm_type;
     "data" := StringValue (Base64Encode data) ]}.

Definition track_dict (type key key_id : string) (pssh : list Value)
    : gmap string Value :=
  {[ "type" := StringValue type;
     "key" := StringValue (Base64Encode key);
     "key_id" := StringValue (Base64Encode key_id);
     "pssh" := ListValue pssh ]}.

Definition license_dict (status : string) (tracks : list Value)
    : gmap string Value :=
  {[ "status" := StringValue status; "tracks" := ListValue tracks ]}.

(** The text of a license document. *)
Definition license_text (license : gmap string Value) : string :=
  JSONWriter_Write (DictionaryValue license).

(** The reply of a server that answers with the license [license]. *)
Definition reply_with (license : gmap string Value) : Status * string :=
  (Status.OK,
   JSONWriter_Write
     (DictionaryValue
        {[ "response" := StringValue (Base64Encode (license_text license)) ]})).

(** A reply whose [response] field is not Base64. *)
Definition undecodable_reply : Status * string :=
  (Status.OK,
   JSONWriter_Write
     (DictionaryValue {[ "response" := StringValue "%%% not base64 %%%" ]})).

(** A failure of the transport. *)
Definition transport_failure : Status * string :=
  (MkStatus error.HTTP_FAILURE "connection refused", "").

Definition sd_track : Value :=
  DictionaryValue
    (track_dict "SD" "sd-key-0123456." "sd-key-id"
       [DictionaryValue (pssh_dict "WIDEVINE" "sd-pssh")]).
Definition hd_track : Value :=
  DictionaryValue
    (track_dict "HD" "hd-key-0123456." "hd-key-id"
       [DictionaryValue (pssh_dict "WIDEVINE" "hd-pssh")]).
Definition audio_track : Value :=
  DictionaryValue
    (track_dict "AUDIO" "au-key-0123456." "au-key-id"
       [DictionaryValue (pssh_dict "WIDEVINE" "au-pssh")]).

(** The keys these entries carry. *)
Definition track_key (key key_id pssh_data : string) : EncryptionKey :=
  MkEncryptionKey (list_byte_of_string key_id) (list_byte_of_string key)
    (PsshBoxFromPsshData (list_byte_of_string pssh_data)).

Definition sd_key : EncryptionKey := track_key "sd-key-0123456." "sd-key-id" "sd-pssh".
Definition hd_key : EncryptionKey := track_key "hd-key-0123456." "hd-key-id" "hd-pssh".
Definition audio_key : EncryptionKey :=
  track_key "au-key-0123456." "au-key-id" "au-pssh".
Definition uhd_key : EncryptionKey :=
  track_key "uhd-key-012345." "uhd-key-id" "uhd-pssh".

Definition valid_license : gmap string Value :=
  license_dict "OK" [sd_track; hd_track; audio_track].

Definition valid_keys : gmap TrackType EncryptionKey :=
  {[ TRACK_TYPE_SD := sd_key; TRACK_TYPE_HD := hd_key;
     TRACK_TYPE_AUDIO := audio_key ]}.

Definition transient_license : gmap string Value :=
  {[ "status" := StringValue "INTERNAL_ERROR" ]}.

(** The second entry has no [key] field. *)
Definition hd_track_without_key : Value :=
  DictionaryValue
    {[ "type" := StringValue "HD";
       "key_id" := StringValue (Base64Encode "hd-key-id");
       "pssh" := ListValue [DictionaryValue (pssh_dict "WIDEVINE" "hd-pssh")] ]}.

Definition license_with_broken_second_track : gmap string Value :=
  license_dict "OK" [sd_track; hd_track_without_key; audio_track].

(** The third entry carries a label that is no track type. *)
Definition license_with_unmapped_label : gmap string Value :=
  license_dict "OK"
    [sd_track; hd_track;
     DictionaryValue
       (track_dict "UHD" "uhd-key-012345." "uhd-key-id"
          [DictionaryValue (pssh_dict "WIDEVINE" "uhd-pssh")])].

(** The first entry carries two pssh entries. *)
Definition sd_track_dict_with_two_pssh_entries : gmap string Value :=
  track_dict "SD" "sd-key-0123456." "sd-key-id"
    [DictionaryValue (pssh_dict "WIDEVINE" "sd-pssh");
     DictionaryValue (pssh_dict "OTHER" "other-pssh")].

Definition license_with_two_pssh_entries : gmap string Value :=
  license_dict "OK"
    [DictionaryValue sd_track_dict_with_two_pssh_entries; hd_track; audio_track].

(** The single pssh entry of the first track is for another system. *)
Definition sd_track_dict_with_other_drm_type : gmap string Value :=
  track_dict "SD" "sd-key-0123456." "sd-key-id"
    [DictionaryValue (pssh_dict "OTHER" "sd-pssh")].

Definition license_with_other_drm_type : gmap string Value :=
  license_dict "OK"
    [DictionaryValue sd_track_dict_with_other_drm_type; hd_track; audio_track].

Definition fresh_source : WidevineEncryptionKeySource :=
  MkSource "https://license.example/getkey" "content-1" false ∅.

(** The same object once it has fetched the keys of [valid_license]. *)
Definition fetched_source : WidevineEncryptionKeySource :=
  MkSource "https://license.example/getkey" "content-1" true valid_keys.

(** What [fresh_source] signs and posts. *)
Definition request : string := @FillRequest release "content-1".

Definition message : string :=
  @signed_message release signer fresh_source
    ("signature-of-" +:+ Base64Encode request).

(** The world after [fetches] runs of [FetchKeys] by [fresh_source], the
    first [posted] of which posted once, with no sleep. *)
Definition world_after (posted fetches : nat) : World :=
  MkWorld (replicate posted ("https://license.example/getkey", message)) []
          (replicate fetches request)
          (flat_map
             (fun run : nat =>
                Signed request
                  :: if (run <? posted)%nat
                     then [Posted "https://license.example/getkey" message]
                     else [])
             (seq 0 fetches)).

(** The world after one run of [FetchKeys] by [fresh_source] that posted
    [posted] times and slept [slept]. *)
Definition world_after_retries (posted : nat) (slept : list Z) : World :=
  MkWorld (replicate posted ("https://license.example/getkey", message)) slept
          [request]
          (Signed request
             :: attempts posted "https://license.example/getkey" message slept).

(** A license with two tracks only. *)
Definition license_with_two_tracks : gmap string Value :=
  license_dict "OK" [sd_track; hd_track].

(** What the extraction of [license_with_broken_second_track] leaves in an
    empty map. *)
Definition partial_keys : gmap TrackType EncryptionKey :=
  {[ TRACK_TYPE_SD := sd_key ]}.

(** What the extraction of [license_with_unmapped_label] leaves in an
    empty map, in a build without assertions. *)
Definition keys_with_unmapped_label : gmap TrackType EncryptionKey :=
  {[ TRACK_TYPE_SD := sd_key; TRACK_TYPE_HD := hd_key;
     TRACK_TYPE_UNKNOWN := uhd_key ]}.

End Reference.

(** * Properties *)

Section Properties.
Context `{BaseLibrary} `{EncryptionKeySource} `{RequestSigner} `{HttpFetcher}.

(** ** Building and signing the request *)

(** C9. For every content identifier [FillRequest] writes the document
    [{content_id: base64(content_id), policy: empty, tracks: [SD, HD,
    AUDIO], drm_types: [WIDEVINE]}]: it is a function of the content
    identifier alone, and it has no failing path. *)
Theorem FillRequest_writes_request_document (content_id : string) :
  FillRequest content_id = JSONWriter_Write (request_document content_id).
Proof.
  unfold FillRequest, request_document.
  apply (f_equal JSONWriter_Write), (f_equal DictionaryValue).
  unfold FillRequest_dict, base.Set_, base.SetString, base.Append,
    base.AppendString; cbn [app].
  apply map_eq; intros field.
  destruct (decide (field = "content_id")) as [->|]; [by simplify_map_eq|].
  destruct (decide (field = "policy")) as [->|]; [by simplify_map_eq|].
  destruct (decide (field = "tracks")) as [->|]; [by simplify_map_eq|].
  destruct (decide (field = "drm_types")) as [->|]; by simplify_map_eq.
Qed.

(** C6. Base64-decoding the [request] field of the envelope [SignRequest]
    produces gives back exactly the bytes that were handed to the signer's
    [GenerateSignature]: the signer is asked once, for the raw request
    document and not for its Base64 form, and the [signature] field of the
    envelope carries what it answered for these bytes. *)
Theorem SignRequest_request_field_decodes_to_signed_bytes
    (request : string) (w w' : World) (status : Status) (signed_request : string) :
  (forall bytes, Base64Decode (Base64Encode bytes) = Some bytes) ->
  SignRequest request w = (status, Some signed_request, w') ->
  status = Status.OK
  /\ signed w' = signed w ++ [request]
  /\ trace w' = trace w ++ [Signed request]
  /\ exists signature envelope request_base64_string signature_base64_string,
       GenerateSignature request = Some signature
       /\ signed_request = JSONWriter_Write (DictionaryValue envelope)
       /\ base.GetString envelope "request" = Some request_base64_string
       /\ Base64Decode request_base64_string = Some request
       /\ base.GetString envelope "signature" = Some signature_base64_string
       /\ Base64Decode signature_base64_string = Some signature.
Proof.
  intros Hbase64. unfold SignRequest.
  destruct (GenerateSignature request) as [signature|] eqn:Hsign;
    intros [= <- <- <-].
  split; [reflexivity|]. split; [reflexivity|]. split; [reflexivity|].
  exists signature, (SignRequest_dict request signature),
    (Base64Encode request), (Base64Encode signature).
  split; [reflexivity|]. split; [reflexivity|].
  unfold SignRequest_dict, base.GetString, base.SetString.
  split; [by simplify_map_eq|]. split; [apply Hbase64|].
  split; [by simplify_map_eq|apply Hbase64].
Qed.

(** When the signer fails nothing is written to [*signed_request]. *)
Lemma SignRequest_signer_failure (request : string) (w : World) :
  GenerateSignature request = None ->
  SignRequest request w
  = (MkStatus error.INTERNAL_ERROR "Signature generation failed.", None,
     record_signed request w).
Proof. intros Hsign. unfold SignRequest. by rewrite Hsign. Qed.

Lemma SignRequest_signed (request signature : string) (w : World) :
  GenerateSignature request = Some signature ->
  SignRequest request w
  = (Status.OK,
     Some (JSONWriter_Write (DictionaryValue (SignRequest_dict request signature))),
     record_signed request w).
Proof. intros Hsign. unfold SignRequest. by rewrite Hsign. Qed.

(** ** Classifying the license status *)

Lemma ExtractEncryptionKey_status_not_OK
    (response status : string) (m : gmap TrackType EncryptionKey) :
  license_status_of response status ->
  status <> kLicenseStatusOK ->
  ExtractEncryptionKey response m
  = Returned (false, bool_decide (status = kLicenseStatusTransientError), m).
Proof.
  intros (license_dict & Hread & Hstatus) Hne.
  unfold ExtractEncryptionKey. rewrite Hread. cbn [base.GetAsDictionary].
  rewrite Hstatus. by rewrite bool_decide_eq_true_2.
Qed.

(** C7. On a license document whose [status] is not [OK],
    [ExtractEncryptionKey] returns false and leaves the key map as it was;
    [*transient_error] is true exactly when the status is
    [INTERNAL_ERROR]. *)
Theorem ExtractEncryptionKey_non_OK_status
    (response status : string) (m : gmap TrackType EncryptionKey) :
  license_status_of response status ->
  status <> kLicenseStatusOK ->
  exists transient_error,
    ExtractEncryptionKey response m = Returned (false, transient_error, m)
    /\ (transient_error = true <-> status = kLicenseStatusTransientError).
Proof.
  intros Hlicense Hne.
  exists (bool_decide (status = kLicenseStatusTransientError)).
  split; [by apply ExtractEncryptionKey_status_not_OK|].
  apply bool_decide_eq_true.
Qed.

(** ** Debug assertions *)

Lemma DCHECK_Returned {A : Type} (cond : bool) (k : outcome A) (a : A) :
  DCHECK cond k = Returned a ->
  k = Returned a /\ (DCHECK_IS_ON = true -> cond = true).
Proof.
  unfold DCHECK. destruct DCHECK_IS_ON, cond; cbn; intros Hk; try done;
    split; done.
Qed.

Lemma returns_DCHECK {A : Type} (P : A -> Prop) (cond : bool) (k : outcome A) :
  returns P k -> returns P (DCHECK cond k).
Proof.
  unfold DCHECK. by destruct DCHECK_IS_ON eqn:Hon, cond.
Qed.

Lemma returns_release {A : Type} (P : A -> Prop) (o : outcome A) :
  DCHECK_IS_ON = false -> returns P o -> exists a, o = Returned a /\ P a.
Proof.
  intros Hoff. destruct o as [a|]; cbn; [eauto|]. by rewrite Hoff.
Qed.


Lemma returns_bind {A B : Type} (P : A -> Prop) (Q : B -> Prop)
    (o : outcome A) (f : A -> outcome B) :
  returns P o -> (forall a, P a -> returns Q (f a)) -> returns Q (o ≫= f).
Proof. destruct o as [a|]; cbn; eauto. Qed.

(** ** The pssh field of a track entry *)

Lemma GetPsshData_defect (track_dict : gmap string Value) :
  pssh_defect track_dict ->
  returns (fun pssh_data => pssh_data = None) (GetPsshData track_dict).
Proof.
  unfold GetPsshData.
  intros [Hlist|Hlist|first others Hlist Hfirst|pssh_dict others Hlist Hdrm
         |pssh_dict others drm_type Hlist Hdrm Hne|pssh_dict others Hlist Hdata
         |pssh_dict others data Hlist Hdata Hdecode];
    rewrite Hlist; try done; apply returns_DCHECK; cbn.
  - done.
  - unfold base.GetDictionary; cbn. by destruct first.
  - unfold base.GetDictionary; cbn. by rewrite Hdrm.
  - unfold base.GetDictionary; cbn. rewrite Hdrm; cbn.
    by rewrite bool_decide_eq_true_2.
  - unfold base.GetDictionary; cbn.
    destruct (base.GetString pssh_dict "drm_type"); cbn; [|done].
    case_bool_decide; [done|]. by rewrite Hdata.
  - unfold base.GetDictionary; cbn.
    destruct (base.GetString pssh_dict "drm_type"); cbn; [|done].
    case_bool_decide; [done|]. rewrite Hdata; cbn.
    unfold Base64StringToBytes. by rewrite Hdecode.
Qed.

(** What [GetPsshData] requires to succeed: the first entry of the list is
    a dictionary with [drm_type] [WIDEVINE] and Base64 [data]; a build with
    assertions also requires that there is no other entry. *)
Lemma GetPsshData_Some (track_dict : gmap string Value) (pssh_data : list byte) :
  GetPsshData track_dict = Returned (Some pssh_data) <->
  exists pssh_dict others data bytes,
    base.GetList track_dict "pssh" = Some (DictionaryValue pssh_dict :: others)
    /\ base.GetString pssh_dict "drm_type" = Some "WIDEVINE"
    /\ base.GetString pssh_dict "data" = Some data
    /\ Base64Decode data = Some bytes
    /\ pssh_data = list_byte_of_string bytes
    /\ (DCHECK_IS_ON = true -> others = []).
Proof.
  unfold GetPsshData. split.
  - destruct (base.GetList track_dict "pssh") as [pssh_list|]; [|done].
    intros [Hbody Hsize]%DCHECK_Returned.
    destruct pssh_list as [|[| | | |pssh_dict|] others]; try done.
    revert Hbody. unfold base.GetDictionary; cbn.
    destruct (base.GetString pssh_dict "drm_type") as [drm_type|] eqn:Hdrm_type;
      cbn; [|intros [=]].
    destruct (bool_decide (drm_type ≠ "WIDEVINE")) eqn:Hdrm; [intros [=]|].
    apply bool_decide_eq_false, dec_stable in Hdrm. subst drm_type.
    destruct (base.GetString pssh_dict "data") as [data|] eqn:Hdata;
      cbn; [|intros [=]].
    unfold Base64StringToBytes.
    destruct (Base64Decode data) as [bytes|] eqn:Hdecode; cbn; [|intros [=]].
    intros [= <-]. exists pssh_dict, others, data, bytes.
    repeat split; try done.
    intros Hon. specialize (Hsize Hon). apply bool_decide_eq_true in Hsize.
    unfold base.GetSize in Hsize. destruct others; [done|]. cbn in Hsize. lia.
  - intros (pssh_dict & others & data & bytes
            & Hlist & Hdrm & Hdata & Hdecode & -> & Hothers).
    rewrite Hlist. unfold DCHECK.
    destruct DCHECK_IS_ON.
    + rewrite Hothers by done. cbn. unfold base.GetDictionary; cbn.
      rewrite Hdrm; cbn. rewrite Hdata; cbn.
      unfold Base64StringToBytes. by rewrite Hdecode.
    + cbn. unfold base.GetDictionary; cbn.
      rewrite Hdrm; cbn. rewrite Hdata; cbn.
      unfold Base64StringToBytes. by rewrite Hdecode.
Qed.

(** ** One entry of the tracks list *)

(** An assertion only fails in a build that has assertions. *)
Lemma GetPsshData_returns (track_dict : gmap string Value) :
  returns (fun _ => True) (GetPsshData track_dict).
Proof.
  unfold GetPsshData. destruct (base.GetList track_dict "pssh"); [|done].
  by apply returns_DCHECK.
Qed.

Lemma ExtractEncryptionKey_track_returns (track : Value)
    (m : gmap TrackType EncryptionKey) :
  returns (fun _ => True) (ExtractEncryptionKey_track track m).
Proof.
  unfold ExtractEncryptionKey_track.
  destruct (base.GetAsDictionary track) as [track_dict|]; [|done].
  destruct (base.GetString track_dict "type"); [|done].
  apply returns_DCHECK. destruct (m !! _); [done|].
  destruct (GetKeyAndKeyId track_dict) as [[key_bytes key_id_bytes]|]; [|done].
  eapply returns_bind; [apply GetPsshData_returns|].
  by intros [pssh_data|] _.
Qed.

Lemma ExtractEncryptionKey_track_Some (track : Value)
    (m m' : gmap TrackType EncryptionKey) :
  ExtractEncryptionKey_track track m = Returned (Some m') ->
  exists track_type k,
    track_yields track track_type k
    /\ m !! track_type = None
    /\ m' = <[track_type := k]> m
    /\ (DCHECK_IS_ON = true -> track_type <> TRACK_TYPE_UNKNOWN).
Proof.
  unfold ExtractEncryptionKey_track.
  destruct track as [| | | |track_dict|]; try discriminate. cbn.
  destruct (base.GetString track_dict "type") as [track_type_str|] eqn:Htype;
    [|intros [=]].
  intros [Hbody Hknown]%DCHECK_Returned. revert Hbody.
  destruct (m !! GetTrackTypeFromString track_type_str) eqn:Hfresh; [intros [=]|].
  destruct (GetKeyAndKeyId track_dict) as [[key_bytes key_id_bytes]|] eqn:Hkey;
    [|intros [=]].
  destruct (GetPsshData track_dict) as [[pssh_data|]|] eqn:Hpssh; cbn;
    intros [=]. subst m'.
  eexists _, _. split; [|split; [exact Hfresh|split; [reflexivity|]]].
  - by exists track_dict, track_type_str, key_bytes, key_id_bytes, pssh_data.
  - intros Hon. specialize (Hknown Hon).
    apply bool_decide_eq_true in Hknown. congruence.
Qed.

(** An entry whose type is already in the map is refused. *)
Lemma ExtractEncryptionKey_track_duplicate (track_dict : gmap string Value)
    (track_type_str : string) (m : gmap TrackType EncryptionKey) :
  base.GetString track_dict "type" = Some track_type_str ->
  is_Some (m !! GetTrackTypeFromString track_type_str) ->
  returns (fun r => r = None)
    (ExtractEncryptionKey_track (DictionaryValue track_dict) m).
Proof.
  intros Htype [k Hk]. unfold ExtractEncryptionKey_track. cbn.
  rewrite Htype. apply returns_DCHECK. by rewrite Hk.
Qed.

(** An entry with a defective pssh field is refused. *)
Lemma ExtractEncryptionKey_track_pssh_defect (track_dict : gmap string Value)
    (m : gmap TrackType EncryptionKey) :
  pssh_defect track_dict ->
  returns (fun r => r = None)
    (ExtractEncryptionKey_track (DictionaryValue track_dict) m).
Proof.
  intros Hdefect%GetPsshData_defect. unfold ExtractEncryptionKey_track. cbn.
  destruct (base.GetString track_dict "type"); [|done].
  apply returns_DCHECK.
  destruct (m !! _); [done|].
  destruct (GetKeyAndKeyId track_dict) as [[key_bytes key_id_bytes]|]; [|done].
  destruct (GetPsshData track_dict) as [pssh_data|]; cbn in *; [|done].
  by subst pssh_data.
Qed.

(** ** The loop over the tracks *)

(** A loop that ran to its end has added the key of every entry, each under
    a type the map did not have. *)
Lemma ExtractEncryptionKey_tracks_true (tracks : list Value)
    (m m' : gmap TrackType EncryptionKey) :
  ExtractEncryptionKey_tracks tracks m = Returned (true, m') ->
  m ⊆ m'
  /\ size m' = (size m + length tracks)%nat
  /\ (forall track_type k,
        m' !! track_type = Some k <->
        m !! track_type = Some k
        \/ exists track, track ∈ tracks /\ track_yields track track_type k).
Proof.
  revert m. induction tracks as [|track rest IH]; intros m; cbn.
  - intros [= <-]. split; [done|]. split; [lia|].
    intros track_type k. split; [by left|].
    intros [Hm|(track & Hin & _)]; [done|]. by apply elem_of_nil in Hin.
  - destruct (ExtractEncryptionKey_track track m) as [[m1|]|] eqn:Htrack; cbn;
      [|intros [=]..].
    intros Hrest. apply IH in Hrest as (Hsub & Hsize & Hkeys).
    apply ExtractEncryptionKey_track_Some in Htrack
      as (track_type1 & k1 & Hyields & Hfresh & -> & _).
    split; [|split].
    + etrans; [|exact Hsub]. by apply insert_subseteq.
    + rewrite Hsize, map_size_insert_None by done. lia.
    + intros track_type k. rewrite Hkeys. split.
      * intros [Hm1|(track' & Hin & Hy)].
        -- apply lookup_insert_Some in Hm1 as [[<- <-]|[_ Hm]]; [right|by left].
           exists track. split; [apply elem_of_cons; by left|done].
        -- right. exists track'. split; [apply elem_of_cons; by right|done].
      * intros [Hm|(track' & [->|Hin]%elem_of_cons & Hy)].
        -- left. rewrite lookup_insert_ne; [done|]. congruence.
        -- left. destruct Hyields as (d1 & s1 & kb1 & kib1 & p1 & -> & Ht1
                                      & -> & Hk1 & Hp1 & ->).
           destruct Hy as (d2 & s2 & kb2 & kib2 & p2 & [= <-] & Ht2
                           & -> & Hk2 & Hp2 & ->).
           replace s2 with s1 by congruence.
           replace kb2 with kb1 by congruence.
           replace kib2 with kib1 by congruence.
           replace p2 with p1 by congruence.
           apply lookup_insert_eq.
        -- right. by exists track'.
Qed.

(** A loop that stopped early did so at the first entry it refused, with
    the entries before it added to the map. *)
Lemma ExtractEncryptionKey_tracks_false (tracks : list Value)
    (m m' : gmap TrackType EncryptionKey) :
  ExtractEncryptionKey_tracks tracks m = Returned (false, m') ->
  exists committed refused rest,
    tracks = committed ++ refused :: rest
    /\ ExtractEncryptionKey_tracks committed m = Returned (true, m')
    /\ ExtractEncryptionKey_track refused m' = Returned None.
Proof.
  revert m. induction tracks as [|track rest IH]; intros m; cbn; [intros [=]|].
  destruct (ExtractEncryptionKey_track track m) as [[m1|]|] eqn:Htrack; cbn.
  - intros (committed & refused & rest' & -> & Hcommitted & Hrefused)%IH.
    exists (track :: committed), refused, rest'. split; [done|].
    split; [|done]. cbn. by rewrite Htrack.
  - intros [= <-]. by exists [], track, rest.
  - intros [=].
Qed.

(** A refused entry anywhere in the list makes the loop fail. *)
Lemma ExtractEncryptionKey_tracks_refused (tracks : list Value) (track : Value)
    (m : gmap TrackType EncryptionKey) :
  track ∈ tracks ->
  (forall m0, returns (fun r => r = None) (ExtractEncryptionKey_track track m0)) ->
  returns (fun r => r.1 = false) (ExtractEncryptionKey_tracks tracks m).
Proof.
  intros Hin Hrefused. revert m.
  induction tracks as [|track' rest IH]; intros m; [by apply elem_of_nil in Hin|].
  cbn. apply elem_of_cons in Hin as [<-|Hin].
  - specialize (Hrefused m).
    destruct (ExtractEncryptionKey_track track m) as [r|]; cbn in *; [|done].
    by subst r.
  - destruct (ExtractEncryptionKey_track track' m) as [[m1|]|] eqn:Htrack; cbn.
    + by apply IH.
    + done.
    + pose proof (ExtractEncryptionKey_track_returns track' m) as Hfailed.
      by rewrite Htrack in Hfailed.
Qed.

Lemma ExtractEncryptionKey_tracks_returns (tracks : list Value)
    (m : gmap TrackType EncryptionKey) :
  returns (fun _ => True) (ExtractEncryptionKey_tracks tracks m).
Proof.
  revert m. induction tracks as [|track rest IH]; intros m; cbn; [done|].
  eapply returns_bind; [apply ExtractEncryptionKey_track_returns|].
  intros [m1|] _; [apply IH|done].
Qed.

(** The loop on a list in two parts. *)
Lemma ExtractEncryptionKey_tracks_app (before after : list Value)
    (m : gmap TrackType EncryptionKey) :
  ExtractEncryptionKey_tracks (before ++ after) m
  = r ← ExtractEncryptionKey_tracks before m;
    if (r.1 : bool) then ExtractEncryptionKey_tracks after r.2 else Returned r.
Proof.
  revert m. induction before as [|track rest IH]; intros m; cbn; [done|].
  destruct (ExtractEncryptionKey_track track m) as [[m1|]|]; cbn; [|done..].
  apply IH.
Qed.

(** ** Extraction *)

Lemma ExtractEncryptionKey_returns (response : string)
    (m : gmap TrackType EncryptionKey) :
  returns (fun _ => True) (ExtractEncryptionKey response m).
Proof.
  unfold ExtractEncryptionKey.
  destruct (JSONReader_Read response) as [root|]; [|done].
  destruct (base.GetAsDictionary root) as [license_dict|]; [|done].
  destruct (base.GetString license_dict "status") as [license_status|]; [|done].
  case_bool_decide; [done|].
  destruct (base.GetList license_dict "tracks") as [tracks|]; [|done].
  case_bool_decide; [|done].
  eapply returns_bind; [apply ExtractEncryptionKey_tracks_returns|done].
Qed.

(** In a build without assertions [ExtractEncryptionKey] always returns. *)
Lemma ExtractEncryptionKey_release_returns (response : string)
    (m : gmap TrackType EncryptionKey) :
  DCHECK_IS_ON = false -> exists r, ExtractEncryptionKey response m = Returned r.
Proof.
  intros Hoff.
  destruct (returns_release _ _ Hoff (ExtractEncryptionKey_returns response m))
    as (r & Hr & _).
  by exists r.
Qed.

(** On a license document with the status [OK] the result is that of the
    loop over its tracks, of which there must be three or more. *)
Lemma ExtractEncryptionKey_OK (response : string)
    (license_dict : gmap string Value) (m : gmap TrackType EncryptionKey) :
  JSONReader_Read response = Some (DictionaryValue license_dict) ->
  base.GetString license_dict "status" = Some kLicenseStatusOK ->
  ExtractEncryptionKey response m
  = match base.GetList license_dict "tracks" with
    | Some tracks =>
      if bool_decide (base.GetSize tracks >= NUM_VALID_TRACK_TYPES) then
        r ← ExtractEncryptionKey_tracks tracks m;
        Returned (r.1, false, r.2)
      else Returned (false, false, m)
    | None => Returned (false, false, m)
    end.
Proof.
  intros Hread Hstatus. unfold ExtractEncryptionKey.
  rewrite Hread. cbn [base.GetAsDictionary]. rewrite Hstatus.
  by rewrite bool_decide_eq_false_2 by (by intros []).
Qed.

(** Either nothing was done to the map, or the loop over the tracks of a
    license with the status [OK] ran. *)
Lemma ExtractEncryptionKey_inv (response : string)
    (m m' : gmap TrackType EncryptionKey) (extracted transient_error : bool) :
  ExtractEncryptionKey response m = Returned (extracted, transient_error, m') ->
  (extracted = false /\ m' = m)
  \/ (transient_error = false
      /\ exists license_dict tracks,
           JSONReader_Read response = Some (DictionaryValue license_dict)
           /\ base.GetString license_dict "status" = Some kLicenseStatusOK
           /\ base.GetList license_dict "tracks" = Some tracks
           /\ (3 <= length tracks)%nat
           /\ ExtractEncryptionKey_tracks tracks m = Returned (extracted, m')).
Proof.
  unfold ExtractEncryptionKey.
  destruct (JSONReader_Read response) as [root|] eqn:Hread;
    [|intros [= <- <- <-]; by left].
  destruct root as [| | | |license_dict|]; cbn [base.GetAsDictionary];
    try (intros [= <- <- <-]; by left).
  destruct (base.GetString license_dict "status") as [license_status|] eqn:Hstatus;
    [|intros [= <- <- <-]; by left].
  destruct (bool_decide (license_status ≠ kLicenseStatusOK)) eqn:Hok;
    [intros [= <- <- <-]; by left|].
  apply bool_decide_eq_false, dec_stable in Hok. subst license_status.
  destruct (base.GetList license_dict "tracks") as [tracks|] eqn:Htracks;
    [|intros [= <- <- <-]; by left].
  case_bool_decide as Hsize; [|intros [= <- <- <-]; by left].
  destruct (ExtractEncryptionKey_tracks tracks m) as [[ok m1]|] eqn:Hloop; cbn;
    intros [= <- <- <-].
  right. split; [done|]. exists license_dict, tracks. repeat split; try done.
  unfold base.GetSize, NUM_VALID_TRACK_TYPES in Hsize. lia.
Qed.

(** Why a call returns with the map untouched, or else what its loop
    did. *)
Lemma ExtractEncryptionKey_cases (response : string)
    (m m' : gmap TrackType EncryptionKey) (extracted transient_error : bool) :
  ExtractEncryptionKey response m = Returned (extracted, transient_error, m') ->
  (extracted = false /\ m' = m
   /\ (license_defect response
       \/ exists status,
            license_status_of response status /\ status <> kLicenseStatusOK))
  \/ (transient_error = false
      /\ exists license_dict tracks,
           JSONReader_Read response = Some (DictionaryValue license_dict)
           /\ base.GetString license_dict "status" = Some kLicenseStatusOK
           /\ base.GetList license_dict "tracks" = Some tracks
           /\ (3 <= length tracks)%nat
           /\ ExtractEncryptionKey_tracks tracks m = Returned (extracted, m')).
Proof.
  unfold ExtractEncryptionKey, license_status_of.
  destruct (JSONReader_Read response) as [root|] eqn:Hread.
  2: { intros [= <- <- <-]. left. split; [done|]. split; [done|].
       left. by apply license_not_json. }
  destruct (base.GetAsDictionary root) as [license_dict|] eqn:Hroot.
  2: { intros [= <- <- <-]. left. split; [done|]. split; [done|].
       left. by eapply license_not_dictionary. }
  assert (root = DictionaryValue license_dict) as ->.
  { destruct root; cbn in Hroot; congruence. }
  destruct (base.GetString license_dict "status") as [license_status|]
    eqn:Hstatus.
  2: { intros [= <- <- <-]. left. split; [done|]. split; [done|].
       left. by eapply license_status_missing. }
  destruct (bool_decide (license_status ≠ kLicenseStatusOK)) eqn:Hok.
  { apply bool_decide_eq_true in Hok. intros [= <- <- <-]. left.
    split; [done|]. split; [done|]. right. exists license_status.
    split; [by exists license_dict|done]. }
  apply bool_decide_eq_false in Hok. apply dec_stable in Hok. subst.
  destruct (base.GetList license_dict "tracks") as [tracks|] eqn:Htracks.
  2: { intros [= <- <- <-]. left. split; [done|]. split; [done|].
       left. by eapply license_tracks_missing. }
  destruct (bool_decide (base.GetSize tracks >= NUM_VALID_TRACK_TYPES))
    eqn:Hsize.
  2: { apply bool_decide_eq_false in Hsize. intros [= <- <- <-]. left.
       split; [done|]. split; [done|]. left.
       eapply license_tracks_too_few; [done..|].
       unfold base.GetSize, NUM_VALID_TRACK_TYPES in Hsize. lia. }
  apply bool_decide_eq_true in Hsize.
  destruct (ExtractEncryptionKey_tracks tracks m) as [[ok m1]|] eqn:Hloop;
    cbn; [|done].
  intros [= <- <- <-]. right. split; [done|].
  exists license_dict, tracks. do 3 (split; [done|]). split; [|done].
  unfold base.GetSize, NUM_VALID_TRACK_TYPES in Hsize. lia.
Qed.

(** C1 (as the code has it). [ExtractEncryptionKey] commits each entry of
    the tracks list to the key map as soon as that entry has parsed.  The
    map after a call is the map before it plus the keys of the entries
    [committed]: when the call returns true these are all the entries of
    the license, three or more; when it returns false either the response
    is no license with the status [OK] and three tracks or more, and
    nothing is committed, or the license has an entry [refused] that the
    loop refuses, and the committed entries are those before it, each one
    accepted in its turn. *)
Theorem ExtractEncryptionKey_commits_entry_by_entry
    (response : string) (m m' : gmap TrackType EncryptionKey)
    (extracted transient_error : bool) :
  ExtractEncryptionKey response m = Returned (extracted, transient_error, m') ->
  exists committed : list Value,
    m ⊆ m'
    /\ size m' = (size m + length committed)%nat
    /\ (forall track_type k,
          m' !! track_type = Some k <->
          m !! track_type = Some k
          \/ exists track, track ∈ committed /\ track_yields track track_type k)
    /\ (committed = [] -> m' = m)
    /\ if extracted then
         exists license_dict,
           JSONReader_Read response = Some (DictionaryValue license_dict)
           /\ base.GetString license_dict "status" = Some kLicenseStatusOK
           /\ base.GetList license_dict "tracks" = Some committed
           /\ (3 <= length committed)%nat
       else
         (committed = []
          /\ (license_defect response
              \/ exists status,
                   license_status_of response status
                   /\ status <> kLicenseStatusOK))
         \/ exists license_dict refused rest,
              JSONReader_Read response = Some (DictionaryValue license_dict)
              /\ base.GetString license_dict "status" = Some kLicenseStatusOK
              /\ base.GetList license_dict "tracks"
                 = Some (committed ++ refused :: rest)
              /\ (3 <= length (committed ++ refused :: rest))%nat
              /\ ExtractEncryptionKey_tracks committed m = Returned (true, m')
              /\ ExtractEncryptionKey_track refused m' = Returned None.
Proof.
  intros [(-> & -> & Hcause)
         |(_ & license_dict & tracks & Hread & Hstatus & Htracks & Hsize & Hloop)]
    %ExtractEncryptionKey_cases.
  - exists []. split; [done|]. split; [cbn; lia|].
    split; [|split; [done|by left]].
    intros track_type k. split; [by left|].
    intros [Hm|(track & Hin & _)]; [done|]. by apply elem_of_nil in Hin.
  - destruct extracted.
    + exists tracks.
      pose proof (ExtractEncryptionKey_tracks_true _ _ _ Hloop)
        as (Hsub & Hsz & Hkeys).
      split; [done|]. split; [done|]. split; [done|]. split.
      * intros ->. cbn in Hsize. lia.
      * by exists license_dict.
    + apply ExtractEncryptionKey_tracks_false in Hloop
        as (committed & refused & rest & -> & Hcommitted & Hrefused).
      exists committed.
      pose proof (ExtractEncryptionKey_tracks_true _ _ _ Hcommitted)
        as (Hsub & Hsz & Hkeys).
      split; [done|]. split; [done|]. split; [done|]. split.
      * intros ->. cbn in Hcommitted. congruence.
      * right. by exists license_dict, refused, rest.
Qed.

(** C5 (as the code has it). In a license document with the status [OK], a
    track entry whose [pssh] field is no list, an empty list, or a list
    whose first entry is no dictionary, has a [drm_type] that is missing or
    not [WIDEVINE], or has [data] that is missing or not Base64, makes the
    extraction fail, and not as a transient error; a build with assertions
    may stop at an assertion instead, as the one on the size of the list
    does on an empty list.  (The entries after the first are looked at by
    that assertion only.) *)
Theorem ExtractEncryptionKey_pssh_defect_is_fatal
    (response : string) (license_dict track_dict : gmap string Value)
    (tracks : list Value) (m : gmap TrackType EncryptionKey) :
  JSONReader_Read response = Some (DictionaryValue license_dict) ->
  base.GetString license_dict "status" = Some kLicenseStatusOK ->
  base.GetList license_dict "tracks" = Some tracks ->
  DictionaryValue track_dict ∈ tracks ->
  pssh_defect track_dict ->
  match ExtractEncryptionKey response m with
  | Returned (extracted, transient_error, _) =>
    extracted = false /\ transient_error = false
  | DcheckFailed => DCHECK_IS_ON = true
  end.
Proof.
  intros Hread Hstatus Htracks Hin Hdefect.
  rewrite (ExtractEncryptionKey_OK _ _ _ Hread Hstatus), Htracks.
  case_bool_decide; [|done].
  pose proof (ExtractEncryptionKey_tracks_refused tracks _ m Hin
                (fun m0 => ExtractEncryptionKey_track_pssh_defect _ m0 Hdefect))
    as Hloop.
  destruct (ExtractEncryptionKey_tracks tracks m) as [[ok m1]|]; cbn in *; done.
Qed.

(** X1. Two entries of one type: the second is refused if the loop gets to
    it, so the extraction fails, and not as a transient error. *)
Theorem ExtractEncryptionKey_duplicate_type
    (response : string) (license_dict first second : gmap string Value)
    (before between after : list Value) (track_type_str : string)
    (m : gmap TrackType EncryptionKey) :
  JSONReader_Read response = Some (DictionaryValue license_dict) ->
  base.GetString license_dict "status" = Some kLicenseStatusOK ->
  base.GetList license_dict "tracks"
  = Some (before ++ DictionaryValue first :: between
                 ++ DictionaryValue second :: after) ->
  base.GetString first "type" = Some track_type_str ->
  base.GetString second "type" = Some track_type_str ->
  match ExtractEncryptionKey response m with
  | Returned (extracted, transient_error, _) =>
    extracted = false /\ transient_error = false
  | DcheckFailed => DCHECK_IS_ON = true
  end.
Proof.
  intros Hread Hstatus Htracks Hfirst Hsecond.
  rewrite (ExtractEncryptionKey_OK _ _ _ Hread Hstatus), Htracks.
  case_bool_decide; [|done].
  rewrite ExtractEncryptionKey_tracks_app.
  pose proof (ExtractEncryptionKey_tracks_returns before m) as Hbefore.
  destruct (ExtractEncryptionKey_tracks before m) as [[[] m1]|]; cbn in *;
    [|done..].
  pose proof (ExtractEncryptionKey_track_returns (DictionaryValue first) m1)
    as Hret1.
  destruct (ExtractEncryptionKey_track (DictionaryValue first) m1)
    as [[m2|]|] eqn:Htrack1; cbn in *; [|done..].
  apply ExtractEncryptionKey_track_Some in Htrack1
    as (track_type & k & Hyields & _ & -> & _).
  destruct Hyields as (d & s & ? & ? & ? & [= <-] & Hs & -> & _).
  assert (s = track_type_str) as -> by congruence.
  rewrite ExtractEncryptionKey_tracks_app.
  pose proof (ExtractEncryptionKey_tracks_returns between
                (<[GetTrackTypeFromString track_type_str := k]> m1)) as Hret2.
  destruct (ExtractEncryptionKey_tracks between _) as [[[] m3]|] eqn:Hbetween;
    cbn in *; [|done..].
  apply ExtractEncryptionKey_tracks_true in Hbetween as (Hsub & _ & _).
  pose proof (ExtractEncryptionKey_track_duplicate second track_type_str m3
                Hsecond) as Hdup.
  destruct (ExtractEncryptionKey_track (DictionaryValue second) m3)
    as [[m4|]|]; cbn in *; [|done|apply Hdup].
  - enough (Some m4 = None) by done. apply Hdup.
    exists k. eapply lookup_weaken; [|exact Hsub]. apply lookup_insert_eq.
  - exists k. eapply lookup_weaken; [|exact Hsub]. apply lookup_insert_eq.
Qed.

(** ** Decoding the reply *)

(** [DecodeResponse] fails exactly when the reply is no JSON text, is no
    object, has no string [response], or that string is not Base64. *)
Lemma DecodeResponse_None (raw_response : string) :
  DecodeResponse raw_response = None <->
  JSONReader_Read raw_response = None
  \/ (exists root, JSONReader_Read raw_response = Some root
                   /\ base.GetAsDictionary root = None)
  \/ (exists response_dict,
        JSONReader_Read raw_response = Some (DictionaryValue response_dict)
        /\ (base.GetString response_dict "response" = None
            \/ exists response_base64_string,
                 base.GetString response_dict "response"
                 = Some response_base64_string
                 /\ Base64Decode response_base64_string = None)).
Proof.
  unfold DecodeResponse.
  destruct (JSONReader_Read raw_response) as [root|]; cbn; [|by split; [left|]].
  destruct root as [| | | |response_dict|]; cbn;
    try (split; [intros _; right; left; by eexists|done]).
  destruct (base.GetString response_dict "response") as [field|] eqn:Hfield; cbn.
  - split.
    + intros Hdecode. right; right. exists response_dict. split; [done|].
      right. by exists field.
    + intros [[=]|[(root & [= <-] & [=])|(d & [= <-] & [Hnone|(f & Hf & Hdec)])]].
      * congruence.
      * congruence.
  - split; [|done]. intros _. right; right. exists response_dict.
    split; [done|by left].
Qed.

(** ** The retry loop *)

Lemma set_encryption_key_map_same (this : WidevineEncryptionKeySource) :
  set_encryption_key_map (encryption_key_map_ this) this = this.
Proof. by destruct this. Qed.

(** A transient reply: the loop sleeps, unless this was the last round, and
    goes on with the double delay. *)
Lemma FetchKeys_loop_transient (i : Z) (rest : list Z) (message : string)
    (sleep_duration : Z) (this : WidevineEncryptionKeySource) (w : World)
    (n : nat) :
  n = length (posts w) ->
  transient_reply (Post n (server_url_ this) message) ->
  FetchKeys_loop (i :: rest) message sleep_duration this w
  = if bool_decide (i ≠ kNumTransientErrorRetries - 1) then
      FetchKeys_loop rest message (wrap_int64 (sleep_duration * 2)) this
        (record_sleep sleep_duration (record_post (server_url_ this) message w))
    else
      FetchKeys_loop rest message sleep_duration this
        (record_post (server_url_ this) message w).
Proof.
  intros -> (Hok & response & Hdecode & Hlicense). cbn [FetchKeys_loop].
  destruct (Post _ _ _) as [status raw_response]; cbn in Hok, Hdecode.
  rewrite Hok, Hdecode; cbn [negb].
  rewrite (ExtractEncryptionKey_status_not_OK _ _ _ Hlicense) by done.
  cbn. by rewrite set_encryption_key_map_same.
Qed.

(** A broken reply: the loop returns at once, with no sleep. *)
Lemma FetchKeys_loop_broken (i : Z) (rest : list Z) (message : string)
    (sleep_duration : Z) (this : WidevineEncryptionKeySource) (w : World)
    (n : nat) :
  n = length (posts w) ->
  broken_reply (Post n (server_url_ this) message) ->
  FetchKeys_loop (i :: rest) message sleep_duration this w
  = Returned (broken_reply_status (Post n (server_url_ this) message), this,
              record_post (server_url_ this) message w).
Proof.
  intros -> Hbroken. cbn [FetchKeys_loop].
  unfold broken_reply_status, broken_reply in *.
  destruct (Post _ _ _) as [status raw_response]; cbn in *.
  destruct (Status.ok status); cbn; [|done].
  destruct Hbroken as [|Hdecode]; [done|]. by rewrite Hdecode.
Qed.

Lemma broken_reply_status_not_ok (reply : Status * string) :
  Status.ok (broken_reply_status reply) = false.
Proof.
  unfold broken_reply_status. by destruct (Status.ok reply.1) eqn:Hok.
Qed.

Lemma FetchKeys_signed (this : WidevineEncryptionKeySource) (w : World)
    (signature : string) :
  GenerateSignature (FillRequest (content_id_ this)) = Some signature ->
  FetchKeys this w
  = FetchKeys_loop [0; 1; 2; 3; 4] (signed_message this signature)
      kFirstRetryDelayMilliseconds this
      (record_signed (FillRequest (content_id_ this)) w).
Proof.
  intros Hsign. unfold FetchKeys. by rewrite (SignRequest_signed _ _ _ Hsign).
Qed.

(** X3. A signer that cannot sign ends [FetchKeys] with an internal error
    before anything is posted. *)
Theorem FetchKeys_signer_failure (this : WidevineEncryptionKeySource) (w : World) :
  GenerateSignature (FillRequest (content_id_ this)) = None ->
  FetchKeys this w
  = Returned (MkStatus error.INTERNAL_ERROR "Signature generation failed.",
              this, record_signed (FillRequest (content_id_ this)) w).
Proof.
  intros Hsign. unfold FetchKeys. by rewrite (SignRequest_signer_failure _ _ Hsign).
Qed.

(** The events of [k] rounds that went on and one more post are [k + 1]
    attempts with the sleeps of the schedule between them. *)
Lemma rounds_backoff_schedule (k : nat) (url body : string) :
  (k <= 4)%nat ->
  rounds k url body kFirstRetryDelayMilliseconds ++ [Posted url body]
  = attempts (S k) url body backoff_schedule.
Proof. intros Hk. by destruct k as [|[|[|[|[|k]]]]]; [..|lia]. Qed.

(** C4. When every reply of the transport decodes to a license document
    with the transient status, [FetchKeys] posts five times, sleeps four
    times, for 1000, 2000, 4000 and 8000 milliseconds in this order, each
    sleep between two posts and none after the fifth post, and returns the
    error of the exhausted retries. *)
Theorem FetchKeys_exhausts_retries
    (this : WidevineEncryptionKeySource) (w : World) (signature : string) :
  GenerateSignature (FillRequest (content_id_ this)) = Some signature ->
  (forall n url body, transient_reply (Post n url body)) ->
  exists w',
    FetchKeys this w
    = Returned (MkStatus error.SERVER_ERROR
                  "Failed to recover from server internal error.", this, w')
    /\ posts w'
       = posts w ++ replicate 5 (server_url_ this, signed_message this signature)
    /\ sleeps w' = sleeps w ++ [1000; 2000; 4000; 8000]
    /\ trace w'
       = trace w
         ++ [Signed (FillRequest (content_id_ this));
             Posted (server_url_ this) (signed_message this signature);
             Slept 1000;
             Posted (server_url_ this) (signed_message this signature);
             Slept 2000;
             Posted (server_url_ this) (signed_message this signature);
             Slept 4000;
             Posted (server_url_ this) (signed_message this signature);
             Slept 8000;
             Posted (server_url_ this) (signed_message this signature)].
Proof.
  intros Hsign Htransient. rewrite (FetchKeys_signed _ _ _ Hsign).
  do 5 (erewrite FetchKeys_loop_transient by (reflexivity || apply Htransient);
        rewrite ?bool_decide_eq_true_2, ?bool_decide_eq_false_2
          by (unfold kNumTransientErrorRetries; (lia || (intros Hne; by apply Hne)))).
  cbn [FetchKeys_loop]. eexists. split; [reflexivity|].
  cbn. rewrite <- !app_assoc. done.
Qed.

(** [k] transient replies, none in the last round: the loop goes on with
    the rounds left, [k] posts and [k] sleeps later. *)
Lemma FetchKeys_loop_transient_prefix (k : nat) (indices : list Z)
    (message : string) (sleep_duration : Z)
    (this : WidevineEncryptionKeySource) (w : World) :
  Forall (fun i => i ≠ kNumTransientErrorRetries - 1) (take k indices) ->
  (k <= length indices)%nat ->
  (forall j, (j < k)%nat ->
     transient_reply (Post (length (posts w) + j) (server_url_ this) message)) ->
  FetchKeys_loop indices message sleep_duration this w
  = FetchKeys_loop (drop k indices) message (delay_after k sleep_duration) this
      (MkWorld (posts w ++ replicate k (server_url_ this, message))
               (sleeps w ++ delays k sleep_duration) (signed w)
               (trace w ++ rounds k (server_url_ this) message sleep_duration)).
Proof.
  revert indices sleep_duration w.
  induction k as [|k IH]; intros indices sleep_duration w Hnotlast Hlen
    Htransient.
  - cbn. rewrite !app_nil_r. by destruct w.
  - destruct indices as [|i rest]; [cbn in Hlen; lia|].
    cbn in Hlen, Hnotlast. apply Forall_cons in Hnotlast as [Hi Hnotlast].
    erewrite FetchKeys_loop_transient; [|reflexivity|].
    2: { specialize (Htransient O ltac:(lia)).
         by rewrite Nat.add_0_r in Htransient. }
    rewrite bool_decide_eq_true_2 by done.
    assert (forall j, length (posts (record_sleep sleep_duration
                        (record_post (server_url_ this) message w))) + j
                      = length (posts w) + S j)%nat as Hposts
      by (intros j; cbn; rewrite length_app; cbn; lia).
    rewrite IH; [|done|lia|].
    + cbn. by rewrite <- !app_assoc.
    + intros j Hj. rewrite Hposts. apply Htransient. lia.
Qed.

(** A reply with a license the extraction accepts: the loop returns [OK]
    with the map the extraction leaves. *)
Lemma FetchKeys_loop_extracted (i : Z) (rest : list Z) (message : string)
    (sleep_duration : Z) (this : WidevineEncryptionKeySource) (w : World)
    (n : nat) (response : string) (transient_error : bool)
    (m : gmap TrackType EncryptionKey) :
  n = length (posts w) ->
  Status.ok (Post n (server_url_ this) message).1 = true ->
  DecodeResponse (Post n (server_url_ this) message).2 = Some response ->
  ExtractEncryptionKey response (encryption_key_map_ this)
  = Returned (true, transient_error, m) ->
  FetchKeys_loop (i :: rest) message sleep_duration this w
  = Returned (Status.OK, set_encryption_key_map m this,
              record_post (server_url_ this) message w).
Proof.
  intros -> Hok Hdecode Hextract. cbn [FetchKeys_loop].
  destruct (Post _ _ _) as [status raw_response]; cbn in Hok, Hdecode.
  rewrite Hok, Hdecode; cbn [negb]. by rewrite Hextract.
Qed.

(** X2. Retrying pays: after [k] transient replies, fewer than five, a reply
    with a license the extraction accepts makes [FetchKeys] return [OK],
    [k + 1] posts and [k] sleeps after it started. *)
Theorem FetchKeys_succeeds_after_transient_replies
    (this : WidevineEncryptionKeySource) (w : World) (signature : string)
    (k : nat) (response : string) (transient_error : bool)
    (m : gmap TrackType EncryptionKey) :
  GenerateSignature (FillRequest (content_id_ this)) = Some signature ->
  (k < 5)%nat ->
  (forall j, (j < k)%nat ->
     transient_reply (Post (length (posts w) + j) (server_url_ this)
                        (signed_message this signature))) ->
  Status.ok (Post (length (posts w) + k) (server_url_ this)
               (signed_message this signature)).1 = true ->
  DecodeResponse (Post (length (posts w) + k) (server_url_ this)
                    (signed_message this signature)).2 = Some response ->
  ExtractEncryptionKey response (encryption_key_map_ this)
  = Returned (true, transient_error, m) ->
  exists w',
    FetchKeys this w = Returned (Status.OK, set_encryption_key_map m this, w')
    /\ posts w'
       = posts w ++ replicate (S k) (server_url_ this, signed_message this signature)
    /\ sleeps w' = sleeps w ++ take k backoff_schedule
    /\ trace w'
       = trace w ++ Signed (FillRequest (content_id_ this))
                 :: attempts (S k) (server_url_ this)
                      (signed_message this signature) backoff_schedule.
Proof.
  intros Hsign Hk Htransient Hok Hdecode Hextract.
  rewrite (FetchKeys_signed _ _ _ Hsign).
  rewrite (FetchKeys_loop_transient_prefix k); [| |cbn; lia|done].
  2: { unfold kNumTransientErrorRetries.
       destruct k as [|[|[|[|[|k]]]]]; [..|lia]; cbn; repeat constructor; lia. }
  destruct (drop k [0; 1; 2; 3; 4]) as [|i rest] eqn:Hdrop.
  { apply (f_equal length) in Hdrop. rewrite length_drop in Hdrop.
    cbn in Hdrop. lia. }
  eexists. split.
  - eapply (FetchKeys_loop_extracted _ _ _ _ _ _ (length (posts w) + k));
      try done.
    cbn. by rewrite length_app, length_replicate.
  - cbn. split; [|split].
    + rewrite <- app_assoc. f_equal. symmetry. apply replicate_cons_app.
    + f_equal. by destruct k as [|[|[|[|[|k]]]]]; [..|lia].
    + rewrite <- !app_assoc. cbn [app]. do 2 f_equal.
      apply rounds_backoff_schedule. lia.
Qed.

(** [k] transient replies and then a broken one, in a loop that has more
    than [k] rounds to go, none of the first [k] being the last round. *)
Lemma FetchKeys_loop_transient_then_broken (k : nat) (indices : list Z)
    (message : string) (sleep_duration : Z)
    (this : WidevineEncryptionKeySource) (w : World) :
  (k < length indices)%nat ->
  Forall (fun i => i ≠ kNumTransientErrorRetries - 1) (take k indices) ->
  (forall j, (j < k)%nat ->
     transient_reply (Post (length (posts w) + j) (server_url_ this) message)) ->
  broken_reply (Post (length (posts w) + k) (server_url_ this) message) ->
  FetchKeys_loop indices message sleep_duration this w
  = Returned
      (broken_reply_status
         (Post (length (posts w) + k) (server_url_ this) message),
       this,
       MkWorld (posts w ++ replicate (S k) (server_url_ this, message))
               (sleeps w ++ delays k sleep_duration) (signed w)
               (trace w ++ rounds k (server_url_ this) message sleep_duration
                  ++ [Posted (server_url_ this) message])).
Proof.
  revert indices sleep_duration w.
  induction k as [|k IH]; intros indices sleep_duration w Hlen Hnotlast
    Htransient Hbroken;
    (destruct indices as [|i rest]; [cbn in Hlen; lia|]).
  - rewrite Nat.add_0_r in Hbroken |- *.
    rewrite (FetchKeys_loop_broken _ _ _ _ _ _ _ eq_refl Hbroken).
    cbn. by rewrite app_nil_r.
  - cbn in Hlen, Hnotlast. apply Forall_cons in Hnotlast as [Hi Hnotlast].
    erewrite FetchKeys_loop_transient; [|reflexivity|].
    2: { specialize (Htransient O ltac:(lia)).
         by rewrite Nat.add_0_r in Htransient. }
    rewrite bool_decide_eq_true_2 by done.
    assert (forall j, length (posts (record_sleep sleep_duration
                        (record_post (server_url_ this) message w))) + j
                      = length (posts w) + S j)%nat as Hposts
      by (intros j; cbn; rewrite length_app; cbn; lia).
    rewrite IH; [|lia|done|..].
    + rewrite Hposts. cbn. by rewrite <- !app_assoc.
    + intros j Hj. rewrite Hposts. apply Htransient. lia.
    + by rewrite Hposts.
Qed.

(** C8. A reply that is a transport failure, or that does not decode, ends
    [FetchKeys] in the attempt that received it, whatever the number of
    attempts left: after [k] transient replies the broken one is the last
    post, the only sleeps are the [k] made before it, one after each of
    the earlier posts, and the status returned is an error. *)
Theorem FetchKeys_broken_reply_is_fatal
    (this : WidevineEncryptionKeySource) (w : World) (signature : string)
    (k : nat) :
  GenerateSignature (FillRequest (content_id_ this)) = Some signature ->
  (k < 5)%nat ->
  (forall j, (j < k)%nat ->
     transient_reply (Post (length (posts w) + j) (server_url_ this)
                        (signed_message this signature))) ->
  broken_reply (Post (length (posts w) + k) (server_url_ this)
                  (signed_message this signature)) ->
  exists status w',
    FetchKeys this w = Returned (status, this, w')
    /\ Status.ok status = false
    /\ status = broken_reply_status
                  (Post (length (posts w) + k) (server_url_ this)
                     (signed_message this signature))
    /\ posts w'
       = posts w ++ replicate (S k) (server_url_ this, signed_message this signature)
    /\ sleeps w' = sleeps w ++ take k backoff_schedule
    /\ trace w'
       = trace w ++ Signed (FillRequest (content_id_ this))
                 :: attempts (S k) (server_url_ this)
                      (signed_message this signature) backoff_schedule.
Proof.
  intros Hsign Hk Htransient Hbroken. rewrite (FetchKeys_signed _ _ _ Hsign).
  eexists _, _. split; [|split; [|split; [|split; [|split]]]].
  - apply FetchKeys_loop_transient_then_broken with (k := k);
      [cbn; lia| |done|done].
    unfold kNumTransientErrorRetries.
    destruct k as [|[|[|[|[|k]]]]]; [..|lia]; cbn; repeat constructor; lia.
  - apply broken_reply_status_not_ok.
  - reflexivity.
  - reflexivity.
  - cbn. f_equal. by destruct k as [|[|[|[|[|k]]]]]; [..|lia].
  - cbn. rewrite <- !app_assoc. cbn [app]. do 2 f_equal.
    apply rounds_backoff_schedule. lia.
Qed.

(** ** The key lookup *)

Lemma FetchKeys_loop_returns (indices : list Z) (message : string)
    (sleep_duration : Z) (this : WidevineEncryptionKeySource) (w : World) :
  returns (fun _ => True) (FetchKeys_loop indices message sleep_duration this w).
Proof.
  revert sleep_duration this w.
  induction indices as [|i rest IH]; intros sleep_duration this w; [done|].
  cbn [FetchKeys_loop]. destruct (Post _ _ _) as [status raw_response].
  destruct (negb _); [done|].
  destruct (DecodeResponse raw_response) as [response|]; [|done].
  eapply returns_bind; [apply ExtractEncryptionKey_returns|].
  intros [[[] transient_error] m] _; [done|].
  destruct (negb _); [done|]. case_bool_decide; apply IH.
Qed.

Lemma FetchKeys_returns (this : WidevineEncryptionKeySource) (w : World) :
  returns (fun _ => True) (FetchKeys this w).
Proof.
  unfold FetchKeys. destruct (SignRequest _ w) as [[status message] w1].
  destruct (negb _); [done|]. apply FetchKeys_loop_returns.
Qed.

Lemma GetKey_returns (track_type : TrackType)
    (this : WidevineEncryptionKeySource) (w : World) :
  returns (fun _ => True) (GetKey track_type this w).
Proof.
  unfold GetKey. apply returns_DCHECK.
  eapply returns_bind with (P := fun _ => True).
  - destruct (negb _); [|done].
    eapply returns_bind; [apply FetchKeys_returns|]. by intros [[??]?] _.
  - intros [[status this1] w1] _. destruct (negb _); [done|].
    by destruct (_ !! _).
Qed.

(** In a build without assertions [FetchKeys] and [GetKey] always return. *)
Lemma FetchKeys_release_returns (this : WidevineEncryptionKeySource) (w : World) :
  DCHECK_IS_ON = false -> exists r, FetchKeys this w = Returned r.
Proof.
  intros Hoff.
  destruct (returns_release _ _ Hoff (FetchKeys_returns this w)) as (r & Hr & _).
  by exists r.
Qed.

Lemma GetKey_release_returns (track_type : TrackType)
    (this : WidevineEncryptionKeySource) (w : World) :
  DCHECK_IS_ON = false -> exists r, GetKey track_type this w = Returned r.
Proof.
  intros Hoff.
  destruct (returns_release _ _ Hoff (GetKey_returns track_type this w))
    as (r & Hr & _).
  by exists r.
Qed.



(** [FetchKeys] changes nothing of the object but its key map. *)
Lemma FetchKeys_loop_key_fetched (indices : list Z) (message : string)
    (sleep_duration : Z) (this this' : WidevineEncryptionKeySource)
    (w w' : World) (status : Status) :
  FetchKeys_loop indices message sleep_duration this w
  = Returned (status, this', w') ->
  key_fetched_ this' = key_fetched_ this.
Proof.
  revert sleep_duration this w.
  induction indices as [|i rest IH]; intros sleep_duration this w;
    cbn [FetchKeys_loop]; [by intros [= _ <- _]|].
  destruct (Post _ _ _) as [post_status raw_response].
  destruct (negb _); [by intros [= _ <- _]|].
  destruct (DecodeResponse raw_response) as [response|]; [|by intros [= _ <- _]].
  destruct (ExtractEncryptionKey response _) as [[[[] transient_error] m]|];
    cbn; [by intros [= _ <- _]| |done].
  destruct (negb _); [by intros [= _ <- _]|].
  case_bool_decide; intros Hloop%IH; by rewrite Hloop.
Qed.

Lemma FetchKeys_key_fetched (this this' : WidevineEncryptionKeySource)
    (w w' : World) (status : Status) :
  FetchKeys this w = Returned (status, this', w') ->
  key_fetched_ this' = key_fetched_ this.
Proof.
  unfold FetchKeys. destruct (SignRequest _ w) as [[sign_status message] w1].
  destruct (negb _); [by intros [= _ <- _]|]. apply FetchKeys_loop_key_fetched.
Qed.


(** C10. [GetKey] assigns to the caller's key once, after the lookup in the
    map has found the track type, and then returns [OK]; when it returns an
    error it has not assigned to it. *)
Theorem GetKey_assigns_key_only_on_success
    (track_type : TrackType) (this this' : WidevineEncryptionKeySource)
    (w w' : World) (status : Status) (writes : list EncryptionKey)
    (before : EncryptionKey) :
  GetKey track_type this w = Returned (status, writes, this', w') ->
  if Status.ok status then
    exists k,
      encryption_key_map_ this' !! track_type = Some k
      /\ writes = [k] /\ key_after before writes = k
  else writes = [] /\ key_after before writes = before.
Proof.
  unfold GetKey. intros [Hbody _]%DCHECK_Returned. revert Hbody.
  destruct (if negb (key_fetched_ this) then _ else _)
    as [[[fetch_status this1] w1]|]; [|done].
  cbn. intros Hbody. destruct (Status.ok fetch_status) eqn:Hok; cbn in Hbody.
  - destruct (encryption_key_map_ this1 !! track_type) as [k|] eqn:Hlookup;
      injection Hbody as <- <- <- <-; cbn; [|done].
    by exists k.
  - injection Hbody as <- <- <- <-. by rewrite Hok.
Qed.

(** X4. A lookup for a track type the fetched map does not hold is an
    internal error, and does nothing else. *)
Theorem GetKey_key_not_found (track_type : TrackType)
    (this : WidevineEncryptionKeySource) (w : World) :
  key_fetched_ this = true ->
  encryption_key_map_ this !! track_type = None ->
  match GetKey track_type this w with
  | Returned r =>
    r = (MkStatus error.INTERNAL_ERROR
           ("Cannot find key of type " +:+ TrackTypeToString track_type),
         [], this, w)
  | DcheckFailed => DCHECK_IS_ON = true
  end.
Proof.
  intros Hfetched Hmissing. unfold GetKey.
  apply (returns_DCHECK
           (fun r => r = (MkStatus error.INTERNAL_ERROR
                            ("Cannot find key of type "
                               +:+ TrackTypeToString track_type),
                          [], this, w))).
  rewrite Hfetched. cbn. by rewrite Hmissing.
Qed.

(** ** A successful extraction in a build with assertions *)

(** With assertions no key is stored under the sentinel. *)
Lemma ExtractEncryptionKey_tracks_known (tracks : list Value)
    (m m' : gmap TrackType EncryptionKey) :
  DCHECK_IS_ON = true ->
  ExtractEncryptionKey_tracks tracks m = Returned (true, m') ->
  m !! TRACK_TYPE_UNKNOWN = None ->
  m' !! TRACK_TYPE_UNKNOWN = None.
Proof.
  intros Hon. revert m. induction tracks as [|track rest IH]; intros m; cbn.
  - by intros [= <-].
  - destruct (ExtractEncryptionKey_track track m) as [[m1|]|] eqn:Htrack; cbn;
      [|intros [=]..].
    intros Hrest Hm. apply (IH _ Hrest).
    apply ExtractEncryptionKey_track_Some in Htrack
      as (track_type & k & _ & _ & -> & Hknown).
    rewrite lookup_insert_ne; [done|]. by apply Hknown.
Qed.

(** A map with three keys or more, none under the sentinel, has a key for
    each of the three valid track types. *)
Lemma three_valid_track_types (m : gmap TrackType EncryptionKey) :
  (3 <= size m)%nat ->
  m !! TRACK_TYPE_UNKNOWN = None ->
  dom m = {[TRACK_TYPE_SD; TRACK_TYPE_HD; TRACK_TYPE_AUDIO]}.
Proof.
  intros Hsize Hunknown.
  assert (dom m ⊆ ({[TRACK_TYPE_SD; TRACK_TYPE_HD; TRACK_TYPE_AUDIO]}
                   : gset TrackType)) as Hsub.
  { intros track_type [k Hk]%elem_of_dom.
    destruct track_type; [congruence|set_solver..]. }
  apply set_eq. intros track_type. split; [apply Hsub|]. intros Hin.
  destruct (decide (track_type ∈ dom m)) as [|Hnotin]; [done|exfalso].
  assert (dom m ⊆ ({[TRACK_TYPE_SD; TRACK_TYPE_HD; TRACK_TYPE_AUDIO]}
                   : gset TrackType) ∖ {[track_type]}) as Hsmall.
  { intros other Hother. apply elem_of_difference.
    split; [by apply Hsub|]. by intros ->%elem_of_singleton. }
  apply subseteq_size in Hsmall. rewrite size_dom in Hsmall.
  rewrite size_difference in Hsmall by (by apply singleton_subseteq_l).
  rewrite size_singleton in Hsmall.
  assert (size ({[TRACK_TYPE_SD; TRACK_TYPE_HD; TRACK_TYPE_AUDIO]}
                : gset TrackType) = 3%nat) as Hthree by reflexivity.
  lia.
Qed.

(** X5. In a build with assertions, an extraction into an empty map that
    returns true leaves exactly the keys of the three valid track types. *)
Theorem ExtractEncryptionKey_debug_success
    (response : string) (transient_error : bool)
    (m' : gmap TrackType EncryptionKey) :
  DCHECK_IS_ON = true ->
  ExtractEncryptionKey response ∅ = Returned (true, transient_error, m') ->
  dom m' = {[TRACK_TYPE_SD; TRACK_TYPE_HD; TRACK_TYPE_AUDIO]}.
Proof.
  intros Hon [[[=] _]|(_ & license_dict & tracks & _ & _ & _ & Hsize & Hloop)]
    %ExtractEncryptionKey_inv.
  apply three_valid_track_types.
  - apply ExtractEncryptionKey_tracks_true in Hloop as (_ & -> & _).
    rewrite map_size_empty. lia.
  - by apply (ExtractEncryptionKey_tracks_known _ _ _ Hon Hloop).
Qed.

(** * More of the code *)

(** ** Documents that are no license *)

(** X6. A response that is no JSON text, no object, has no string
    [status], or has the status [OK] but no [tracks] list or fewer than
    three tracks: the extraction returns false, not as a transient error,
    and leaves the key map as it was. *)
Theorem ExtractEncryptionKey_license_defect (response : string)
    (m : gmap TrackType EncryptionKey) :
  license_defect response ->
  ExtractEncryptionKey response m = Returned (false, false, m).
Proof.
  unfold ExtractEncryptionKey.
  intros [Hread|root Hread Hroot|license_dict Hread Hstatus
         |license_dict Hread Hstatus Htracks
         |license_dict tracks Hread Hstatus Htracks Hfew];
    rewrite Hread; try done.
  - by rewrite Hroot.
  - cbn [base.GetAsDictionary]. by rewrite Hstatus.
  - cbn [base.GetAsDictionary]. rewrite Hstatus, Htracks. by case_bool_decide.
  - cbn [base.GetAsDictionary]. rewrite Hstatus, Htracks.
    rewrite bool_decide_eq_false_2 by (by intros []).
    rewrite bool_decide_eq_false_2; [done|].
    unfold base.GetSize, NUM_VALID_TRACK_TYPES. lia.
Qed.

(** ** Track entries with a broken label or key *)

Lemma GetKeyAndKeyId_None (track_dict : gmap string Value) :
  GetKeyAndKeyId track_dict = None <->
  base.GetString track_dict "key" = None
  \/ (exists s, base.GetString track_dict "key" = Some s /\ Base64Decode s = None)
  \/ base.GetString track_dict "key_id" = None
  \/ (exists s, base.GetString track_dict "key_id" = Some s
                /\ Base64Decode s = None).
Proof.
  unfold GetKeyAndKeyId, Base64StringToBytes.
  destruct (base.GetString track_dict "key") as [key64|] eqn:Hkey; cbn;
    [|by split; [left|]].
  destruct (Base64Decode key64) as [key_str|] eqn:Hdecode; cbn.
  - destruct (base.GetString track_dict "key_id") as [id64|] eqn:Hid; cbn.
    + destruct (Base64Decode id64) as [id_str|] eqn:Hdecode'; cbn.
      * split; [done|].
        intros [[=]|[(s & [= <-] & ?)|[[=]|(s & [= <-] & ?)]]]; congruence.
      * split; [|done]. intros _. right; right; right. by exists id64.
    + split; [|done]. intros _. by right; right; left.
  - split; [|done]. intros _. right; left. by exists key64.
Qed.

Lemma ExtractEncryptionKey_track_defect (track : Value)
    (m : gmap TrackType EncryptionKey) :
  track_defect track ->
  returns (fun r => r = None) (ExtractEncryptionKey_track track m).
Proof.
  intros Hdefect.
  assert (base.GetAsDictionary track = None
          \/ exists track_dict,
               track = DictionaryValue track_dict
               /\ (base.GetString track_dict "type" = None
                   \/ GetKeyAndKeyId track_dict = None)) as [Hnone|Hdict].
  { destruct Hdefect as [Hnone|d -> Htype|d -> Hkey|d s -> Hkey Hdecode
                        |d -> Hid|d s -> Hid Hdecode];
      [by left|right; exists d; split; [done|]..].
    - by left.
    - right. apply GetKeyAndKeyId_None. by left.
    - right. apply GetKeyAndKeyId_None. right; left. by exists s.
    - right. apply GetKeyAndKeyId_None. by right; right; left.
    - right. apply GetKeyAndKeyId_None. right; right; right. by exists s. }
  - unfold ExtractEncryptionKey_track. by rewrite Hnone.
  - destruct Hdict as (track_dict & -> & [Htype|Hkey]);
      unfold ExtractEncryptionKey_track; cbn [base.GetAsDictionary].
    + by rewrite Htype.
    + destruct (base.GetString track_dict "type"); [|done].
      apply returns_DCHECK. destruct (m !! _); [done|]. by rewrite Hkey.
Qed.

(** X7. In a license document with the status [OK], a track entry that is
    no dictionary, has no string [type], or has a [key] or [key_id] that is
    missing or not Base64 makes the extraction fail, and not as a transient
    error. *)
Theorem ExtractEncryptionKey_track_defect_is_fatal
    (response : string) (license_dict : gmap string Value)
    (tracks : list Value) (track : Value) (m : gmap TrackType EncryptionKey) :
  JSONReader_Read response = Some (DictionaryValue license_dict) ->
  base.GetString license_dict "status" = Some kLicenseStatusOK ->
  base.GetList license_dict "tracks" = Some tracks ->
  track ∈ tracks ->
  track_defect track ->
  match ExtractEncryptionKey response m with
  | Returned (extracted, transient_error, _) =>
    extracted = false /\ transient_error = false
  | DcheckFailed => DCHECK_IS_ON = true
  end.
Proof.
  intros Hread Hstatus Htracks Hin Hdefect.
  rewrite (ExtractEncryptionKey_OK _ _ _ Hread Hstatus), Htracks.
  case_bool_decide; [|done].
  pose proof (ExtractEncryptionKey_tracks_refused tracks _ m Hin
                (fun m0 => ExtractEncryptionKey_track_defect _ m0 Hdefect))
    as Hloop.
  destruct (ExtractEncryptionKey_tracks tracks m) as [[ok m1]|]; cbn in *; done.
Qed.

(** ** The transient signal *)

Lemma ExtractEncryptionKey_transient_inv
    (response : string) (m m' : gmap TrackType EncryptionKey)
    (extracted : bool) :
  ExtractEncryptionKey response m = Returned (extracted, true, m') ->
  extracted = false /\ m' = m
  /\ license_status_of response kLicenseStatusTransientError.
Proof.
  unfold ExtractEncryptionKey, license_status_of.
  destruct (JSONReader_Read response) as [root|] eqn:Hread; [|intros [=]].
  destruct root as [| | | |license_dict|]; cbn [base.GetAsDictionary];
    try (by intros [=]).
  destruct (base.GetString license_dict "status") as [license_status|]
    eqn:Hstatus; [|intros [=]].
  destruct (bool_decide (license_status ≠ kLicenseStatusOK)) eqn:Hok.
  - intros [= <- Htransient <-]. apply bool_decide_eq_true in Htransient.
    subst license_status. split; [done|]. split; [done|].
    by exists license_dict.
  - destruct (base.GetList license_dict "tracks") as [tracks|]; [|intros [=]].
    destruct (bool_decide (base.GetSize tracks >= _)); [|intros [=]].
    destruct (ExtractEncryptionKey_tracks tracks m) as [[ok m1]|]; intros [=].
Qed.

(** X8. [*transient_error] comes back true only from a license document
    with the status [INTERNAL_ERROR]; the call has then returned false and
    left the key map as it was. *)
Theorem ExtractEncryptionKey_transient_only_on_status
    (response : string) (m m' : gmap TrackType EncryptionKey)
    (extracted : bool) :
  ExtractEncryptionKey response m = Returned (extracted, true, m') ->
  extracted = false /\ m' = m
  /\ license_status_of response kLicenseStatusTransientError.
Proof. apply ExtractEncryptionKey_transient_inv. Qed.

(** ** Every run of the retry loop *)

(** A run of the loop from round [a] on: it posts [n] times, the same body
    to the same url, and sleeps between the posts and never after the
    last; all replies but the last were transient; it changes nothing of
    the object but the key map; and it returns [OK] only when the
    extraction accepted the last reply. *)
Lemma FetchKeys_loop_run (len : nat) (a : Z) (message : string)
    (sleep_duration : Z) (this this' : WidevineEncryptionKeySource)
    (w w' : World) (status : Status) :
  a + Z.of_nat len = kNumTransientErrorRetries ->
  FetchKeys_loop (seqZ a (Z.of_nat len)) message sleep_duration this w
  = Returned (status, this', w') ->
  exists n,
    (n <= len)%nat /\ (1 <= len -> 1 <= n)%nat
    /\ posts w' = posts w ++ replicate n (server_url_ this, message)
    /\ sleeps w' = sleeps w ++ delays (n - 1) sleep_duration
    /\ signed w' = signed w
    /\ trace w'
       = trace w ++ attempts n (server_url_ this) message
                      (delays (n - 1) sleep_duration)
    /\ this' = set_encryption_key_map (encryption_key_map_ this') this
    /\ (forall j, (j < n - 1)%nat ->
          transient_reply
            (Post (length (posts w) + j) (server_url_ this) message))
    /\ (Status.ok status = true ->
        exists response transient_error,
          Status.ok (Post (length (posts w) + (n - 1))
                       (server_url_ this) message).1 = true
          /\ DecodeResponse (Post (length (posts w) + (n - 1))
                               (server_url_ this) message).2 = Some response
          /\ ExtractEncryptionKey response (encryption_key_map_ this)
             = Returned (true, transient_error, encryption_key_map_ this')).
Proof.
  revert a sleep_duration w. induction len as [|len IH];
    intros a sleep_duration w Hrounds.
  { cbn. intros [= <- <- <-]. exists 0%nat. cbn. rewrite !app_nil_r.
    split; [lia|]. split; [lia|]. split; [done|]. split; [done|].
    split; [done|].
    split; [done|]. split; [by destruct this|]. split; [intros j; lia|done]. }
  rewrite seqZ_cons by lia.
  replace (Z.pred (Z.of_nat (S len))) with (Z.of_nat len) by lia.
  cbn [FetchKeys_loop].
  destruct (Post (length (posts w)) (server_url_ this) message)
    as [post_status raw_response] eqn:Hpost.
  destruct (Status.ok post_status) eqn:Hok; cbn [negb].
  2: { intros [= <- <- <-]. exists 1%nat. cbn. rewrite app_nil_r.
       split; [lia|]. split; [lia|]. split; [done|]. split; [done|].
    split; [done|].
       split; [done|]. split; [by destruct this|].
       split; [intros j; lia|congruence]. }
  destruct (DecodeResponse raw_response) as [response|] eqn:Hdecode.
  2: { intros [= <- <- <-]. exists 1%nat. cbn. rewrite app_nil_r.
       split; [lia|]. split; [lia|]. split; [done|]. split; [done|].
    split; [done|].
       split; [done|]. split; [by destruct this|].
       split; [intros j; lia|done]. }
  destruct (ExtractEncryptionKey response (encryption_key_map_ this))
    as [[[extracted transient_error] m]|] eqn:Hextract; cbn; [|done].
  destruct extracted.
  { intros [= <- <- <-]. exists 1%nat. cbn. rewrite app_nil_r.
    split; [lia|]. split; [lia|]. split; [done|]. split; [done|].
    split; [done|].
    split; [done|]. split; [done|]. split; [intros j; lia|].
    intros _. exists response, transient_error.
    rewrite Nat.add_0_r, Hpost. by cbn. }
  destruct transient_error; cbn [negb].
  2: { intros [= <- <- <-]. exists 1%nat. cbn. rewrite app_nil_r.
       split; [lia|]. split; [lia|]. split; [done|]. split; [done|].
    split; [done|].
       split; [done|]. split; [done|]. split; [intros j; lia|done]. }
  apply ExtractEncryptionKey_transient_inv in Hextract as (_ & -> & Hlicense).
  rewrite set_encryption_key_map_same.
  assert (transient_reply
            (Post (length (posts w)) (server_url_ this) message)) as Hreply.
  { rewrite Hpost. split; [done|]. by exists response. }
  case_bool_decide as Hnotlast.
  - intros (n & Hn & Hone & Hposts & Hsleeps & Hsigned & Htrace & Hthis
            & Htransient & Hstatus)%IH; [|lia].
    assert (1 <= n)%nat as Hn1
      by (apply Hone; unfold kNumTransientErrorRetries in *; lia).
    assert (forall j, length (posts (record_sleep sleep_duration
                        (record_post (server_url_ this) message w))) + j
                      = length (posts w) + S j)%nat as Hlength
      by (intros j; cbn; rewrite length_app; cbn; lia).
    exists (S n). split; [lia|]. split; [lia|].
    split; [rewrite Hposts; cbn; by rewrite <- app_assoc|].
    split.
    { rewrite Hsleeps. cbn [sleeps record_sleep record_post].
      rewrite <- app_assoc. f_equal.
      replace (S n - 1)%nat with (S (n - 1)) by lia. done. }
    split; [done|]. split.
    { rewrite Htrace. cbn [trace record_sleep record_post].
      rewrite <- !app_assoc. f_equal.
      destruct n as [|n']; [lia|].
      replace (S (S n') - 1)%nat with (S n') by lia.
      replace (S n' - 1)%nat with n' by lia. done. }
    split; [done|]. split.
    + intros [|j] Hj; [by rewrite Nat.add_0_r|].
      rewrite <- Hlength. apply Htransient. lia.
    + intros Hstatus_ok.
      destruct (Hstatus Hstatus_ok) as (response' & te & Hok' & Hdecode' & Hex).
      exists response', te. rewrite Hlength in Hok', Hdecode'.
      by replace (S n - 1)%nat with (S (n - 1)) by lia.
  - assert (len = 0)%nat as -> by (unfold kNumTransientErrorRetries in *; lia).
    cbn. intros [= <- <- <-]. exists 1%nat. cbn. rewrite app_nil_r.
    split; [lia|]. split; [lia|]. split; [done|]. split; [done|].
    split; [done|].
    split; [done|]. split; [by destruct this|].
    split; [intros j; lia|done].
Qed.

Lemma delays_backoff_schedule (n : nat) :
  (n <= 4)%nat -> delays n kFirstRetryDelayMilliseconds = take n backoff_schedule.
Proof. intros Hn. by destruct n as [|[|[|[|[|n]]]]]; [..|lia]. Qed.

Lemma attempts_backoff_schedule (n : nat) (url body : string) :
  (n <= 5)%nat ->
  attempts n url body (delays (n - 1) kFirstRetryDelayMilliseconds)
  = attempts n url body backoff_schedule.
Proof. intros Hn. by destruct n as [|[|[|[|[|[|n]]]]]]; [..|lia]. Qed.

(** Any run of [FetchKeys]: one call of the signer on the request, then
    [n] posts of one body to the url of the object with a sleep between
    two consecutive posts, nothing of the object changed but the key map. *)
Lemma FetchKeys_run (this this' : WidevineEncryptionKeySource) (w w' : World)
    (status : Status) :
  FetchKeys this w = Returned (status, this', w') ->
  exists n body,
    (n <= 5)%nat
    /\ posts w' = posts w ++ replicate n (server_url_ this, body)
    /\ sleeps w' = sleeps w ++ take (n - 1) backoff_schedule
    /\ signed w' = signed w ++ [FillRequest (content_id_ this)]
    /\ trace w'
       = trace w ++ Signed (FillRequest (content_id_ this))
                 :: attempts n (server_url_ this) body backoff_schedule
    /\ this' = set_encryption_key_map (encryption_key_map_ this') this
    /\ (n = 0%nat
        \/ exists signature,
             GenerateSignature (FillRequest (content_id_ this)) = Some signature
             /\ body = signed_message this signature).
Proof.
  destruct (GenerateSignature (FillRequest (content_id_ this)))
    as [signature|] eqn:Hsign.
  - rewrite (FetchKeys_signed _ _ _ Hsign).
    change [0; 1; 2; 3; 4] with (seqZ 0 (Z.of_nat 5)).
    intros (n & Hn & _ & Hposts & Hsleeps & Hsigned & Htrace & Hthis & _)
      %FetchKeys_loop_run; [|done].
    exists n, (signed_message this signature).
    split; [done|]. split; [done|].
    split.
    { rewrite Hsleeps. cbn. f_equal. apply delays_backoff_schedule. lia. }
    split; [done|]. split.
    { rewrite Htrace. cbn. rewrite <- app_assoc. cbn. do 2 f_equal.
      by apply attempts_backoff_schedule. }
    split; [done|]. right. by exists signature.
  - unfold FetchKeys. rewrite (SignRequest_signer_failure _ _ Hsign). cbn.
    intros [= <- <- <-]. exists 0%nat, "". cbn. rewrite !app_nil_r.
    split; [lia|]. split; [done|]. split; [done|]. split; [done|].
    split; [done|]. split; [by destruct this|by left].
Qed.

(** X9. Whatever the transport and the signer do, one run of [FetchKeys]
    calls the signer once, on the request of the object's content id, and
    then posts at most five times, always the same body to the url of the
    object, with one sleep between two consecutive posts, for 1000, 2000,
    4000 and 8000 milliseconds in this order, none before the first post
    and none after the last; it changes neither the url, the content id
    nor the fetched flag of the object. *)
Theorem FetchKeys_posts_and_sleeps
    (this this' : WidevineEncryptionKeySource) (w w' : World)
    (status : Status) :
  FetchKeys this w = Returned (status, this', w') ->
  exists n body,
    (n <= 5)%nat
    /\ posts w' = posts w ++ replicate n (server_url_ this, body)
    /\ sleeps w' = sleeps w ++ take (n - 1) backoff_schedule
    /\ signed w' = signed w ++ [FillRequest (content_id_ this)]
    /\ trace w'
       = trace w ++ Signed (FillRequest (content_id_ this))
                 :: attempts n (server_url_ this) body backoff_schedule
    /\ server_url_ this' = server_url_ this
    /\ content_id_ this' = content_id_ this
    /\ key_fetched_ this' = key_fetched_ this.
Proof.
  intros (n & body & Hn & Hposts & Hsleeps & Hsigned & Htrace & Hthis & _)
    %FetchKeys_run.
  exists n, body. rewrite Hthis. by cbn.
Qed.

(** A run of [FetchKeys] that returns [OK]: the signer signed, and after
    fewer than five transient replies a reply came that the extraction
    accepted. *)
Lemma FetchKeys_OK_inv (this this' : WidevineEncryptionKeySource)
    (w w' : World) (status : Status) :
  FetchKeys this w = Returned (status, this', w') ->
  Status.ok status = true ->
  exists signature k response transient_error,
    GenerateSignature (FillRequest (content_id_ this)) = Some signature
    /\ (k < 5)%nat
    /\ (forall j, (j < k)%nat ->
          transient_reply (Post (length (posts w) + j) (server_url_ this)
                             (signed_message this signature)))
    /\ Status.ok (Post (length (posts w) + k) (server_url_ this)
                    (signed_message this signature)).1 = true
    /\ DecodeResponse (Post (length (posts w) + k) (server_url_ this)
                         (signed_message this signature)).2 = Some response
    /\ ExtractEncryptionKey response (encryption_key_map_ this)
       = Returned (true, transient_error, encryption_key_map_ this').
Proof.
  destruct (GenerateSignature (FillRequest (content_id_ this)))
    as [signature|] eqn:Hsign.
  - rewrite (FetchKeys_signed _ _ _ Hsign).
    change [0; 1; 2; 3; 4] with (seqZ 0 (Z.of_nat 5)).
    intros (n & Hn & Hone & _ & _ & _ & _ & _ & Htransient & Hok)
      %FetchKeys_loop_run Hstatus; [|done].
    destruct (Hok Hstatus) as (response & te & Hreply & Hdecode & Hextract).
    exists signature, (n - 1)%nat, response, te.
    split; [done|]. split; [lia|]. done.
  - unfold FetchKeys. rewrite (SignRequest_signer_failure _ _ Hsign). cbn.
    by intros [= <- <- <-].
Qed.

(** X10. [FetchKeys] returns [OK] only if the signer signed the request
    and, after fewer than five transient replies, a reply came whose
    license the extraction accepted; the key map then holds every key it
    held before and at least three more. *)
Theorem FetchKeys_OK_only_if_extracted
    (this this' : WidevineEncryptionKeySource) (w w' : World)
    (status : Status) :
  FetchKeys this w = Returned (status, this', w') ->
  Status.ok status = true ->
  (exists signature k response transient_error,
     GenerateSignature (FillRequest (content_id_ this)) = Some signature
     /\ (k < 5)%nat
     /\ (forall j, (j < k)%nat ->
           transient_reply (Post (length (posts w) + j) (server_url_ this)
                              (signed_message this signature)))
     /\ Status.ok (Post (length (posts w) + k) (server_url_ this)
                     (signed_message this signature)).1 = true
     /\ DecodeResponse (Post (length (posts w) + k) (server_url_ this)
                          (signed_message this signature)).2 = Some response
     /\ ExtractEncryptionKey response (encryption_key_map_ this)
        = Returned (true, transient_error, encryption_key_map_ this'))
  /\ encryption_key_map_ this ⊆ encryption_key_map_ this'
  /\ (size (encryption_key_map_ this) + 3
      <= size (encryption_key_map_ this'))%nat.
Proof.
  intros Hfetch Hok.
  pose proof (FetchKeys_OK_inv _ _ _ _ _ Hfetch Hok)
    as (signature & k & response & te & Hsign & Hk & Htransient & Hreply
        & Hdecode & Hextract).
  split; [by exists signature, k, response, te|].
  apply ExtractEncryptionKey_inv in Hextract
    as [[[=] _]|(_ & license_dict & tracks & _ & _ & _ & Hthree & Hloop)].
  apply ExtractEncryptionKey_tracks_true in Hloop as (Hsub & Hsize & _).
  split; [done|]. lia.
Qed.

(** A reply with a license the extraction refuses for good: the loop
    returns at once with the error, and the map the extraction left. *)
Lemma FetchKeys_loop_refused (i : Z) (rest : list Z) (message : string)
    (sleep_duration : Z) (this : WidevineEncryptionKeySource) (w : World)
    (n : nat) (response : string) (m : gmap TrackType EncryptionKey) :
  n = length (posts w) ->
  Status.ok (Post n (server_url_ this) message).1 = true ->
  DecodeResponse (Post n (server_url_ this) message).2 = Some response ->
  ExtractEncryptionKey response (encryption_key_map_ this)
  = Returned (false, false, m) ->
  FetchKeys_loop (i :: rest) message sleep_duration this w
  = Returned (MkStatus error.SERVER_ERROR
                ("Failed to extract encryption key from '" +:+ response
                   +:+ "'."),
              set_encryption_key_map m this,
              record_post (server_url_ this) message w).
Proof.
  intros -> Hok Hdecode Hextract. cbn [FetchKeys_loop].
  destruct (Post _ _ _) as [status raw_response]; cbn in Hok, Hdecode.
  rewrite Hok, Hdecode; cbn [negb]. by rewrite Hextract.
Qed.

(** X11. A license the extraction refuses, other than for the transient
    status, is not retried: after [k] transient replies, fewer than five,
    such a reply ends [FetchKeys] with the server error that quotes the
    response, [k + 1] posts and [k] sleeps after it started, and with the
    key map as the extraction left it. *)
Theorem FetchKeys_refused_license_is_fatal
    (this : WidevineEncryptionKeySource) (w : World) (signature : string)
    (k : nat) (response : string) (m : gmap TrackType EncryptionKey) :
  GenerateSignature (FillRequest (content_id_ this)) = Some signature ->
  (k < 5)%nat ->
  (forall j, (j < k)%nat ->
     transient_reply (Post (length (posts w) + j) (server_url_ this)
                        (signed_message this signature))) ->
  Status.ok (Post (length (posts w) + k) (server_url_ this)
               (signed_message this signature)).1 = true ->
  DecodeResponse (Post (length (posts w) + k) (server_url_ this)
                    (signed_message this signature)).2 = Some response ->
  ExtractEncryptionKey response (encryption_key_map_ this)
  = Returned (false, false, m) ->
  exists w',
    FetchKeys this w
    = Returned (MkStatus error.SERVER_ERROR
                  ("Failed to extract encryption key from '" +:+ response
                     +:+ "'."),
                set_encryption_key_map m this, w')
    /\ posts w'
       = posts w ++ replicate (S k) (server_url_ this, signed_message this signature)
    /\ sleeps w' = sleeps w ++ take k backoff_schedule
    /\ trace w'
       = trace w ++ Signed (FillRequest (content_id_ this))
                 :: attempts (S k) (server_url_ this)
                      (signed_message this signature) backoff_schedule.
Proof.
  intros Hsign Hk Htransient Hok Hdecode Hextract.
  rewrite (FetchKeys_signed _ _ _ Hsign).
  rewrite (FetchKeys_loop_transient_prefix k); [| |cbn; lia|done].
  2: { unfold kNumTransientErrorRetries.
       destruct k as [|[|[|[|[|k]]]]]; [..|lia]; cbn; repeat constructor; lia. }
  destruct (drop k [0; 1; 2; 3; 4]) as [|i rest] eqn:Hdrop.
  { apply (f_equal length) in Hdrop. rewrite length_drop in Hdrop.
    cbn in Hdrop. lia. }
  eexists. split.
  - eapply (FetchKeys_loop_refused _ _ _ _ _ _ (length (posts w) + k));
      try done.
    cbn. by rewrite length_app, length_replicate.
  - cbn. split; [|split].
    + rewrite <- app_assoc. f_equal. symmetry. apply replicate_cons_app.
    + f_equal. apply delays_backoff_schedule. lia.
    + rewrite <- !app_assoc. cbn [app]. do 2 f_equal.
      apply rounds_backoff_schedule. lia.
Qed.

Lemma DCHECK_passes {A : Type} (cond : bool) (k : outcome A) :
  cond = true -> DCHECK cond k = k.
Proof. intros ->. unfold DCHECK. by rewrite andb_false_r. Qed.

(** The exact result of a run that ends with an accepted license, for the
    callers of [FetchKeys]. *)
Lemma FetchKeys_after_transient_replies
    (this : WidevineEncryptionKeySource) (w : World) (signature : string)
    (k : nat) (response : string) (transient_error : bool)
    (m : gmap TrackType EncryptionKey) :
  GenerateSignature (FillRequest (content_id_ this)) = Some signature ->
  (k < 5)%nat ->
  (forall j, (j < k)%nat ->
     transient_reply (Post (length (posts w) + j) (server_url_ this)
                        (signed_message this signature))) ->
  Status.ok (Post (length (posts w) + k) (server_url_ this)
               (signed_message this signature)).1 = true ->
  DecodeResponse (Post (length (posts w) + k) (server_url_ this)
                    (signed_message this signature)).2 = Some response ->
  ExtractEncryptionKey response (encryption_key_map_ this)
  = Returned (true, transient_error, m) ->
  FetchKeys this w
  = Returned (Status.OK, set_encryption_key_map m this,
              MkWorld
                (posts w ++ replicate (S k)
                              (server_url_ this, signed_message this signature))
                (sleeps w ++ take k backoff_schedule)
                (signed w ++ [FillRequest (content_id_ this)])
                (trace w ++ Signed (FillRequest (content_id_ this))
                   :: attempts (S k) (server_url_ this)
                        (signed_message this signature) backoff_schedule)).
Proof.
  intros Hsign Hk Htransient Hok Hdecode Hextract.
  rewrite (FetchKeys_signed _ _ _ Hsign).
  rewrite (FetchKeys_loop_transient_prefix k); [| |cbn; lia|done].
  2: { unfold kNumTransientErrorRetries.
       destruct k as [|[|[|[|[|k]]]]]; [..|lia]; cbn; repeat constructor; lia. }
  destruct (drop k [0; 1; 2; 3; 4]) as [|i rest] eqn:Hdrop.
  { apply (f_equal length) in Hdrop. rewrite length_drop in Hdrop.
    cbn in Hdrop. lia. }
  erewrite (FetchKeys_loop_extracted _ _ _ _ _ _ (length (posts w) + k));
    [|by cbn; rewrite length_app, length_replicate|done..].
  unfold record_post. cbn. do 2 f_equal. f_equal.
  - rewrite <- app_assoc. f_equal. symmetry. apply replicate_cons_app.
  - f_equal. apply delays_backoff_schedule. lia.
  - rewrite <- !app_assoc. cbn [app]. do 2 f_equal.
    apply rounds_backoff_schedule. lia.
Qed.

(** X12. The first [GetKey] on an object that has not fetched, when after
    [k] transient replies, fewer than five, a reply comes that the
    extraction accepts with the map [m]: the object is marked as fetched
    with the map [m] whether or not [m] holds the track type asked for;
    the caller gets the key of the track type and [OK] if [m] holds it, and
    [INTERNAL_ERROR] and no key otherwise. *)
Theorem GetKey_first_call_fetches
    (track_type : TrackType) (this : WidevineEncryptionKeySource) (w : World)
    (signature : string) (k : nat) (response : string)
    (transient_error : bool) (m : gmap TrackType EncryptionKey) :
  track_type = TRACK_TYPE_SD \/ track_type = TRACK_TYPE_HD
  \/ track_type = TRACK_TYPE_AUDIO ->
  key_fetched_ this = false ->
  GenerateSignature (FillRequest (content_id_ this)) = Some signature ->
  (k < 5)%nat ->
  (forall j, (j < k)%nat ->
     transient_reply (Post (length (posts w) + j) (server_url_ this)
                        (signed_message this signature))) ->
  Status.ok (Post (length (posts w) + k) (server_url_ this)
               (signed_message this signature)).1 = true ->
  DecodeResponse (Post (length (posts w) + k) (server_url_ this)
                    (signed_message this signature)).2 = Some response ->
  ExtractEncryptionKey response (encryption_key_map_ this)
  = Returned (true, transient_error, m) ->
  GetKey track_type this w
  = Returned
      (match m !! track_type with
       | Some encryption_key => Status.OK
       | None =>
         MkStatus error.INTERNAL_ERROR
           ("Cannot find key of type " +:+ TrackTypeToString track_type)
       end,
       match m !! track_type with
       | Some encryption_key => [encryption_key]
       | None => []
       end,
       set_key_fetched true (set_encryption_key_map m this),
       MkWorld
         (posts w ++ replicate (S k)
                       (server_url_ this, signed_message this signature))
         (sleeps w ++ take k backoff_schedule)
         (signed w ++ [FillRequest (content_id_ this)])
         (trace w ++ Signed (FillRequest (content_id_ this))
            :: attempts (S k) (server_url_ this)
                 (signed_message this signature) backoff_schedule)).
Proof.
  intros Hvalid Hfetched Hsign Hk Htransient Hok Hdecode Hextract.
  unfold GetKey. rewrite DCHECK_passes.
  2: { destruct Hvalid as [->|[->| ->]]; by cbn. }
  rewrite Hfetched. cbn [negb].
  rewrite (FetchKeys_after_transient_replies _ _ _ _ _ _ _
             Hsign Hk Htransient Hok Hdecode Hextract).
  cbn. change (Status.ok Status.OK) with true. cbn.
  by destruct (m !! track_type).
Qed.

(** An accepted entry adds a key and keeps the others. *)
Lemma ExtractEncryptionKey_track_subseteq (track : Value)
    (m m' : gmap TrackType EncryptionKey) :
  ExtractEncryptionKey_track track m = Returned (Some m') -> m ⊆ m'.
Proof.
  intros (track_type & k & _ & Hfree & -> & _)%ExtractEncryptionKey_track_Some.
  by apply insert_subseteq.
Qed.

(** The loop over the tracks never removes or replaces a key, whatever it
    returns. *)
Lemma ExtractEncryptionKey_tracks_subseteq (tracks : list Value)
    (m m' : gmap TrackType EncryptionKey) (extracted : bool) :
  ExtractEncryptionKey_tracks tracks m = Returned (extracted, m') -> m ⊆ m'.
Proof.
  destruct extracted.
  - by intros (Hsub & _)%ExtractEncryptionKey_tracks_true.
  - intros (committed & refused & rest & _ & Hcommitted & _)
      %ExtractEncryptionKey_tracks_false.
    by apply ExtractEncryptionKey_tracks_true in Hcommitted as (Hsub & _).
Qed.

Lemma ExtractEncryptionKey_subseteq (response : string)
    (m m' : gmap TrackType EncryptionKey) (extracted transient_error : bool) :
  ExtractEncryptionKey response m = Returned (extracted, transient_error, m') ->
  m ⊆ m'.
Proof.
  intros [[_ ->]|(_ & license_dict & tracks & _ & _ & _ & _ & Hloop)]
    %ExtractEncryptionKey_inv; [done|].
  by eapply ExtractEncryptionKey_tracks_subseteq.
Qed.

(** An entry that every map above [m] refuses makes the loop started on
    [m] return false. *)
Lemma ExtractEncryptionKey_tracks_refused_above (tracks : list Value)
    (track : Value) (m : gmap TrackType EncryptionKey) :
  track ∈ tracks ->
  (forall m0, m ⊆ m0 ->
     returns (fun r => r = None) (ExtractEncryptionKey_track track m0)) ->
  returns (fun r => r.1 = false) (ExtractEncryptionKey_tracks tracks m).
Proof.
  intros Hin. revert m.
  induction tracks as [|track' rest IH]; intros m Hrefused;
    [by apply elem_of_nil in Hin|].
  cbn. apply elem_of_cons in Hin as [<-|Hin].
  - specialize (Hrefused m (reflexivity m)).
    destruct (ExtractEncryptionKey_track track m) as [r|]; cbn in *; [|done].
    by subst r.
  - destruct (ExtractEncryptionKey_track track' m) as [[m1|]|] eqn:Htrack; cbn.
    + apply IH; [done|]. intros m0 Hm0. apply Hrefused.
      etrans; [|done]. by eapply ExtractEncryptionKey_track_subseteq.
    + done.
    + pose proof (ExtractEncryptionKey_track_returns track' m) as Hfailed.
      by rewrite Htrack in Hfailed.
Qed.

(** X13. A key the map holds is never replaced: a license with status
    [OK] that has an entry for a track type the map already holds a key
    for is refused, for good, wherever the entry stands in the list (a
    build with assertions may stop at an assertion instead).  So on an
    object whose map kept keys from a fetch that failed part-way, no later
    license that names these track types can be accepted. *)
Theorem ExtractEncryptionKey_refuses_held_track_type
    (response : string) (license_dict track_dict : gmap string Value)
    (tracks : list Value) (track_type_str : string)
    (m : gmap TrackType EncryptionKey) :
  JSONReader_Read response = Some (DictionaryValue license_dict) ->
  base.GetString license_dict "status" = Some kLicenseStatusOK ->
  base.GetList license_dict "tracks" = Some tracks ->
  DictionaryValue track_dict ∈ tracks ->
  base.GetString track_dict "type" = Some track_type_str ->
  is_Some (m !! GetTrackTypeFromString track_type_str) ->
  match ExtractEncryptionKey response m with
  | Returned (extracted, transient_error, _) =>
    extracted = false /\ transient_error = false
  | DcheckFailed => DCHECK_IS_ON = true
  end.
Proof.
  intros Hread Hstatus Htracks Hin Htype Hheld.
  rewrite (ExtractEncryptionKey_OK _ _ _ Hread Hstatus), Htracks.
  case_bool_decide; [|done].
  pose proof (ExtractEncryptionKey_tracks_refused_above tracks
                (DictionaryValue track_dict) m Hin) as Hloop.
  destruct (ExtractEncryptionKey_tracks tracks m) as [[extracted m']|];
    cbn in *.
  - split; [|done]. apply Hloop. intros m0 Hm0.
    apply (ExtractEncryptionKey_track_duplicate _ _ _ Htype).
    destruct Hheld as [k Hk]. exists k. by eapply lookup_weaken.
  - apply Hloop. intros m0 Hm0.
    apply (ExtractEncryptionKey_track_duplicate _ _ _ Htype).
    destruct Hheld as [k Hk]. exists k. by eapply lookup_weaken.
Qed.

(** What every run of [ExtractEncryptionKey] keeps of the map, every run
    of the retry loop keeps. *)
Lemma FetchKeys_loop_map_invariant
    (Q : gmap TrackType EncryptionKey -> Prop) :
  (forall response m extracted transient_error m',
     Q m ->
     ExtractEncryptionKey response m = Returned (extracted, transient_error, m') ->
     Q m') ->
  forall (indices : list Z) (message : string) (sleep_duration : Z)
    (this this' : WidevineEncryptionKeySource) (w w' : World) (status : Status),
    Q (encryption_key_map_ this) ->
    FetchKeys_loop indices message sleep_duration this w
    = Returned (status, this', w') ->
    Q (encryption_key_map_ this').
Proof.
  intros Hstep indices.
  induction indices as [|i rest IH];
    intros message sleep_duration this this' w w' status HQ; cbn [FetchKeys_loop].
  { by intros [= _ <- _]. }
  destruct (Post _ _ _) as [post_status raw_response].
  destruct (negb (Status.ok post_status)); [by intros [= _ <- _]|].
  destruct (DecodeResponse raw_response) as [response|];
    [|by intros [= _ <- _]].
  destruct (ExtractEncryptionKey response (encryption_key_map_ this))
    as [[[extracted transient_error] m]|] eqn:Hextract; cbn; [|done].
  pose proof (Hstep _ _ _ _ _ HQ Hextract) as HQ'.
  destruct extracted; [by intros [= _ <- _]|].
  destruct (negb transient_error); [by intros [= _ <- _]|].
  destruct (bool_decide (i ≠ kNumTransientErrorRetries - 1));
    by apply IH.
Qed.

Lemma FetchKeys_map_invariant (Q : gmap TrackType EncryptionKey -> Prop)
    (this this' : WidevineEncryptionKeySource) (w w' : World) (status : Status) :
  (forall response m extracted transient_error m',
     Q m ->
     ExtractEncryptionKey response m = Returned (extracted, transient_error, m') ->
     Q m') ->
  Q (encryption_key_map_ this) ->
  FetchKeys this w = Returned (status, this', w') ->
  Q (encryption_key_map_ this').
Proof.
  intros Hstep HQ. unfold FetchKeys.
  destruct (SignRequest _ _) as [[sign_status message] w1].
  destruct (negb (Status.ok sign_status)); [by intros [= _ <- _]|].
  by apply FetchKeys_loop_map_invariant.
Qed.

(** What a call of [GetKey] that returns has done to the object. *)
Lemma GetKey_inv (track_type : TrackType)
    (this this' : WidevineEncryptionKeySource) (w w' : World)
    (status : Status) (writes : list EncryptionKey) :
  GetKey track_type this w = Returned (status, writes, this', w') ->
  (key_fetched_ this = true /\ this' = this /\ w' = w)
  \/ (key_fetched_ this = false
      /\ exists fetch_status this1,
           FetchKeys this w = Returned (fetch_status, this1, w')
           /\ this' = (if Status.ok fetch_status
                       then set_key_fetched true this1 else this1)).
Proof.
  unfold GetKey. intros [Hcall _]%DCHECK_Returned. revert Hcall.
  destruct (key_fetched_ this) eqn:Hfetched; cbn [negb].
  - cbn. change (Status.ok Status.OK) with true. cbn.
    destruct (encryption_key_map_ this !! track_type);
      intros [= _ _ <- <-]; by left.
  - destruct (FetchKeys this w) as [[[fetch_status this1] w1]|] eqn:Hfetch;
      cbn; [|done].
    intros Hcall. right. split; [done|]. exists fetch_status, this1.
    destruct (negb (Status.ok fetch_status)).
    + by injection Hcall as _ _ <- <-.
    + destruct (encryption_key_map_ _ !! track_type);
        by injection Hcall as _ _ <- <-.
Qed.

(** X14. Whatever the signer, the transport and the server do, an object
    built by the constructor and used through [GetKey] alone has the
    fetched flag set only if its map holds three keys or more. *)
Theorem reachable_fetched_holds_three_keys
    (this : WidevineEncryptionKeySource) :
  reachable this ->
  key_fetched_ this = true ->
  (3 <= size (encryption_key_map_ this))%nat.
Proof.
  induction 1 as [server_url content_id
                 |track_type this w status writes this' w' Hreach IH Hcall];
    [done|].
  apply GetKey_inv in Hcall
    as [(Hfetched & -> & _)|(Hfetched & fetch_status & this1 & Hfetch & ->)];
    [done|].
  destruct (Status.ok fetch_status) eqn:Hok.
  - intros _. cbn.
    apply FetchKeys_OK_inv in Hfetch
      as (_ & _ & response & te & _ & _ & _ & _ & _ & Hextract); [|done].
    apply ExtractEncryptionKey_inv in Hextract
      as [[[=] _]|(_ & license_dict & tracks & _ & _ & _ & Hthree & Hloop)].
    apply ExtractEncryptionKey_tracks_true in Hloop as (_ & -> & _). lia.
  - rewrite (FetchKeys_key_fetched _ _ _ _ _ Hfetch). congruence.
Qed.

(** In a build with assertions no run of [ExtractEncryptionKey] that
    returns stores a key under [TRACK_TYPE_UNKNOWN]. *)
Lemma ExtractEncryptionKey_known (response : string)
    (m m' : gmap TrackType EncryptionKey) (extracted transient_error : bool) :
  DCHECK_IS_ON = true ->
  m !! TRACK_TYPE_UNKNOWN = None ->
  ExtractEncryptionKey response m = Returned (extracted, transient_error, m') ->
  m' !! TRACK_TYPE_UNKNOWN = None.
Proof.
  intros Hdebug Hm
    [[_ ->]|(_ & license_dict & tracks & _ & _ & _ & _ & Hloop)]
    %ExtractEncryptionKey_inv; [done|].
  destruct extracted.
  - by eapply ExtractEncryptionKey_tracks_known.
  - apply ExtractEncryptionKey_tracks_false in Hloop
      as (committed & refused & rest & _ & Hcommitted & _).
    by eapply ExtractEncryptionKey_tracks_known.
Qed.

(** X15. In a build with assertions, an object built by the constructor
    and used through [GetKey] alone never holds a key under
    [TRACK_TYPE_UNKNOWN], and once its fetched flag is set it holds the
    keys of exactly the three valid track types: [GetKey] then finds a key
    for each of them. *)
Theorem reachable_debug_fetched_holds_valid_track_types
    (this : WidevineEncryptionKeySource) :
  DCHECK_IS_ON = true ->
  reachable this ->
  encryption_key_map_ this !! TRACK_TYPE_UNKNOWN = None
  /\ (key_fetched_ this = true ->
      dom (encryption_key_map_ this)
      = {[TRACK_TYPE_SD; TRACK_TYPE_HD; TRACK_TYPE_AUDIO]}).
Proof.
  intros Hdebug Hreach.
  assert (encryption_key_map_ this !! TRACK_TYPE_UNKNOWN = None
          /\ (key_fetched_ this = true ->
              (3 <= size (encryption_key_map_ this))%nat)) as [Hknown Hsize].
  { induction Hreach as [server_url content_id
                        |track_type this w status writes this' w' Hreach IH Hcall];
      [done|].
    destruct IH as [Hknown Hsize].
    apply GetKey_inv in Hcall
      as [(Hfetched & -> & _)|(Hfetched & fetch_status & this1 & Hfetch & ->)];
      [done|].
    assert (encryption_key_map_ this1 !! TRACK_TYPE_UNKNOWN = None) as Hknown1.
    { apply (FetchKeys_map_invariant (fun m => m !! TRACK_TYPE_UNKNOWN = None)
               this this1 w w' fetch_status); [|done..].
      intros response m extracted te m' Hm Hextract.
      by eapply ExtractEncryptionKey_known. }
    destruct (Status.ok fetch_status) eqn:Hok; cbn; (split; [done|]).
    - intros _.
      apply FetchKeys_OK_inv in Hfetch
        as (_ & _ & response & te & _ & _ & _ & _ & _ & Hextract); [|done].
      apply ExtractEncryptionKey_inv in Hextract
        as [[[=] _]|(_ & license_dict & tracks & _ & _ & _ & Hthree & Hloop)].
      apply ExtractEncryptionKey_tracks_true in Hloop as (_ & -> & _). lia.
    - rewrite (FetchKeys_key_fetched _ _ _ _ _ Hfetch). congruence. }
  split; [done|]. intros Hfetched. apply three_valid_track_types; auto.
Qed.

(** The dictionaries the two builders hand to the JSON writer. *)
Lemma FillRequest_dict_request_document (content_id : string) :
  DictionaryValue (FillRequest_dict content_id) = request_document content_id.
Proof.
  unfold request_document. apply (f_equal DictionaryValue).
  unfold FillRequest_dict, base.Set_, base.SetString, base.Append,
    base.AppendString; cbn [app].
  apply map_eq; intros field.
  destruct (decide (field = "content_id")) as [->|]; [by simplify_map_eq|].
  destruct (decide (field = "policy")) as [->|]; [by simplify_map_eq|].
  destruct (decide (field = "tracks")) as [->|]; [by simplify_map_eq|].
  destruct (decide (field = "drm_types")) as [->|]; by simplify_map_eq.
Qed.

Lemma SignRequest_dict_envelope_document (request signature : string) :
  DictionaryValue (SignRequest_dict request signature)
  = envelope_document request signature.
Proof.
  unfold envelope_document. apply (f_equal DictionaryValue).
  unfold SignRequest_dict, base.SetString.
  apply map_eq; intros field.
  destruct (decide (field = "request")) as [->|]; [by simplify_map_eq|].
  destruct (decide (field = "signature")) as [->|]; [by simplify_map_eq|].
  destruct (decide (field = "signer")) as [->|]; by simplify_map_eq.
Qed.

(** X16. What goes on the wire: every post [FetchKeys] makes goes to the
    url of the object and carries the envelope [{request, signature,
    signer}] of the request document of the object's content id, with the
    signature the signer gave for the text of that document. *)
Theorem FetchKeys_posts_envelope_of_request
    (this this' : WidevineEncryptionKeySource) (w w' : World)
    (status : Status) (url body : string) :
  FetchKeys this w = Returned (status, this', w') ->
  (url, body) ∈ drop (length (posts w)) (posts w') ->
  url = server_url_ this
  /\ exists signature,
       GenerateSignature (JSONWriter_Write (request_document (content_id_ this)))
       = Some signature
       /\ body
          = JSONWriter_Write
              (envelope_document
                 (JSONWriter_Write (request_document (content_id_ this)))
                 signature).
Proof.
  intros (n & body' & _ & Hposts & _ & _ & _ & _ & Hbody)%FetchKeys_run.
  rewrite Hposts, drop_app_length.
  intros [[= -> ->] Hn]%elem_of_replicate. split; [done|].
  destruct Hbody as [->|(signature & Hsign & ->)]; [done|].
  exists signature. unfold signed_message, FillRequest in *.
  rewrite FillRequest_dict_request_document in *.
  by rewrite SignRequest_dict_envelope_document.
Qed.

(** What one call of [GetKey] that returns has done. *)
Lemma GetKey_run (track_type : TrackType)
    (this this' : WidevineEncryptionKeySource) (w w' : World)
    (status : Status) (writes : list EncryptionKey) :
  GetKey track_type this w = Returned (status, writes, this', w') ->
  server_url_ this' = server_url_ this
  /\ content_id_ this' = content_id_ this
  /\ encryption_key_map_ this ⊆ encryption_key_map_ this'
  /\ (key_fetched_ this = true -> key_fetched_ this' = true)
  /\ exists n body new_signed,
       (n <= 5)%nat
       /\ posts w' = posts w ++ replicate n (server_url_ this, body)
       /\ sleeps w' = sleeps w ++ take (n - 1) backoff_schedule
       /\ signed w' = signed w ++ new_signed
       /\ (new_signed = [] \/ new_signed = [FillRequest (content_id_ this)]).
Proof.
  intros [(Hfetched & -> & ->)
         |(Hfetched & fetch_status & this1 & Hfetch & ->)]%GetKey_inv.
  - do 4 (split; [done|]). exists 0%nat, "", []. cbn. rewrite !app_nil_r.
    split; [lia|]. do 3 (split; [done|]). by left.
  - assert (encryption_key_map_ this ⊆ encryption_key_map_ this1) as Hsub.
    { apply (FetchKeys_map_invariant
               (fun m => encryption_key_map_ this ⊆ m)
               this this1 w w' fetch_status); [|done..].
      intros response m extracted te m' Hm Hextract.
      etrans; [done|]. by eapply ExtractEncryptionKey_subseteq. }
    apply FetchKeys_run in Hfetch
      as (n & body & Hn & Hposts & Hsleeps & Hsigned & _ & Hthis & _).
    rewrite Hthis in *. cbn in Hsub.
    split; [by destruct (Status.ok fetch_status)|].
    split; [by destruct (Status.ok fetch_status)|].
    split; [by destruct (Status.ok fetch_status)|].
    split; [congruence|].
    exists n, body, [FillRequest (content_id_ this)].
    do 4 (split; [done|]). by right.
Qed.

(** X17. Any sequence of [GetKey] calls on one object: the url and the
    content id of the object never change, a key the object holds is never
    removed or replaced, the fetched flag never goes back, and each call
    posts at most five times, always to the url of the object, sleeps at
    most 15 seconds in all and asks the signer at most once, for the
    request of the content id. *)
Theorem GetKey_calls_stay_within_bounds
    (track_types : list TrackType)
    (this this' : WidevineEncryptionKeySource) (w w' : World)
    (statuses : list Status) :
  GetKey_calls track_types this w = Returned (statuses, this', w') ->
  length statuses = length track_types
  /\ server_url_ this' = server_url_ this
  /\ content_id_ this' = content_id_ this
  /\ encryption_key_map_ this ⊆ encryption_key_map_ this'
  /\ (key_fetched_ this = true -> key_fetched_ this' = true)
  /\ exists new_posts new_sleeps new_signed,
       posts w' = posts w ++ new_posts
       /\ sleeps w' = sleeps w ++ new_sleeps
       /\ signed w' = signed w ++ new_signed
       /\ (length new_posts <= 5 * length track_types)%nat
       /\ (forall post, post ∈ new_posts -> post.1 = server_url_ this)
       /\ foldr Z.add 0 new_sleeps <= 15000 * Z.of_nat (length track_types)
       /\ (length new_signed <= length track_types)%nat
       /\ (forall request, request ∈ new_signed ->
             request = FillRequest (content_id_ this)).
Proof.
  revert this w statuses.
  induction track_types as [|track_type rest IH]; intros this w statuses;
    cbn [GetKey_calls].
  { intros [= <- <- <-]. do 5 (split; [done|]). exists [], [], [].
    rewrite !app_nil_r. do 4 (split; [done|]).
    split; [by intros post Hpost%elem_of_nil|].
    split; [cbn; lia|]. split; [done|].
    by intros request Hrequest%elem_of_nil. }
  destruct (GetKey track_type this w) as [[[[status writes] this1] w1]|]
    eqn:Hcall; cbn; [|done].
  destruct (GetKey_calls rest this1 w1) as [[[statuses' this2] w2]|]
    eqn:Hcalls; cbn; [|done].
  intros [= <- <- <-].
  apply GetKey_run in Hcall
    as (Hurl1 & Hid1 & Hsub1 & Hflag1 & n & body & signed1 & Hn & Hposts1
        & Hsleeps1 & Hsigned1 & Hrequest1).
  apply IH in Hcalls
    as (Hlen & Hurl2 & Hid2 & Hsub2 & Hflag2 & posts2 & sleeps2 & signed2
        & Hposts2 & Hsleeps2 & Hsigned2 & Hbound & Hto & Hslept & Hasked
        & Hrequest2).
  split; [by cbn; rewrite Hlen|]. split; [congruence|]. split; [congruence|].
  split; [by etrans|]. split; [auto|].
  exists (replicate n (server_url_ this, body) ++ posts2),
    (take (n - 1) backoff_schedule ++ sleeps2), (signed1 ++ signed2).
  rewrite Hposts2, Hposts1, Hsleeps2, Hsleeps1, Hsigned2, Hsigned1,
    <- !app_assoc.
  do 3 (split; [done|]).
  split; [rewrite length_app, length_replicate; lia|].
  split.
  { intros post [[-> _]%elem_of_replicate|Hpost]%elem_of_app; [done|].
    rewrite <- Hurl1. by apply Hto. }
  split.
  { rewrite foldr_app.
    assert (forall (l : list Z) (z : Z),
               foldr Z.add z l = foldr Z.add 0 l + z) as Hfold.
    { induction l as [|x l IHl]; intros z; cbn; [lia|]. rewrite IHl. lia. }
    rewrite Hfold.
    assert (foldr Z.add 0 (take (n - 1) backoff_schedule) <= 15000).
    { destruct n as [|[|[|[|[|[|n]]]]]]; cbn; lia. }
    lia. }
  split.
  { rewrite length_app. destruct Hrequest1 as [->| ->]; cbn; lia. }
  intros request [Hrequest|Hrequest]%elem_of_app.
  - destruct Hrequest1 as [->| ->]; [by apply elem_of_nil in Hrequest|].
    by apply list_elem_of_singleton in Hrequest.
  - rewrite <- Hid1. by apply Hrequest2.
Qed.

End Properties.

(** * The reference collaborators at work *)

(** ** Base64 round trip *)

(** A check on each of the 64 groups holds for every group. *)
Lemma b64_each_group (check : N -> bool) (n : N) :
  forallb check (N.of_nat <$> seq 0 64) = true -> (n < 64)%N -> check n = true.
Proof.
  intros Hall Hn. rewrite forallb_forall in Hall. apply Hall.
  apply in_map_iff. exists (N.to_nat n). split; [lia|].
  apply in_seq. lia.
Qed.

Lemma b64_index_char (n : N) :
  (n < 64)%N -> Reference.b64_index (Reference.b64_char n) = Some n.
Proof.
  intros Hn.
  pose proof (b64_each_group
                (fun k => match Reference.b64_index (Reference.b64_char k) with
                          | Some m => N.eqb m k
                          | None => false
                          end) n) as Hcheck.
  cbv beta in Hcheck.
  destruct (Reference.b64_index (Reference.b64_char n)) as [m|].
  - f_equal. apply N.eqb_eq, Hcheck; [vm_compute; reflexivity|done].
  - discriminate Hcheck; [vm_compute; reflexivity|done].
Qed.

Lemma b64_char_not_pad (n : N) :
  (n < 64)%N -> Ascii.eqb (Reference.b64_char n) Reference.b64_pad = false.
Proof.
  intros Hn. apply negb_true_iff.
  apply (b64_each_group
           (fun k => negb (Ascii.eqb (Reference.b64_char k) Reference.b64_pad)));
    [vm_compute; reflexivity|done].
Qed.

Lemma b64_groups (x y z : N) :
  (x < 256)%N -> (y < 256)%N -> (z < 256)%N ->
  let s1 := (x / 4)%N in
  let s2 := (x mod 4 * 16 + y / 16)%N in
  let s3 := (y mod 16 * 4 + z / 64)%N in
  let s4 := (z mod 64)%N in
  (s1 < 64 /\ s2 < 64 /\ s3 < 64 /\ s4 < 64
   /\ s1 * 4 + s2 / 16 = x
   /\ s2 mod 16 * 16 + s3 / 4 = y
   /\ s3 mod 4 * 64 + s4 = z)%N.
Proof.
  intros Hx Hy Hz. cbv zeta.
  pose proof (N.div_mod x 4 ltac:(lia)). pose proof (N.mod_lt x 4 ltac:(lia)).
  pose proof (N.div_mod y 16 ltac:(lia)). pose proof (N.mod_lt y 16 ltac:(lia)).
  pose proof (N.div_mod z 64 ltac:(lia)). pose proof (N.mod_lt z 64 ltac:(lia)).
  set (xq := (x / 4)%N) in *. set (xr := (x mod 4)%N) in *.
  set (yq := (y / 16)%N) in *. set (yr := (y mod 16)%N) in *.
  set (zq := (z / 64)%N) in *. set (zr := (z mod 64)%N) in *.
  assert ((xr * 16 + yq) / 16 = xr /\ (xr * 16 + yq) mod 16 = yq)%N as [-> ->].
  { assert (yq < 16)%N by lia.
    rewrite (N.add_comm (xr * 16)).
    rewrite N.div_add by lia. rewrite N.Div0.mod_add.
    rewrite N.div_small, N.mod_small by lia. lia. }
  assert ((yr * 4 + zq) / 4 = yr /\ (yr * 4 + zq) mod 4 = zq)%N as [-> ->].
  { assert (zq < 4)%N by lia.
    rewrite (N.add_comm (yr * 4)).
    rewrite N.div_add by lia. rewrite N.Div0.mod_add.
    rewrite N.div_small, N.mod_small by lia. lia. }
  lia.
Qed.

Lemma b64_decode_encode_bounded (n : nat) (bytes : list ascii) :
  (length bytes <= n)%nat ->
  Reference.b64_decode (Reference.b64_encode bytes) = Some bytes.
Proof.
  revert bytes. induction n as [|n IH]; intros bytes Hlen.
  { destruct bytes; [reflexivity|cbn in Hlen; lia]. }
  destruct bytes as [|a [|b [|c rest]]]; [reflexivity| | |].
  - pose proof (N_ascii_bounded a) as Ha.
    destruct (b64_groups (N_of_ascii a) 0 0 Ha) as (H1 & H2 & _ & _ & Hx & _);
      [lia..|].
    change (0 / 16)%N with 0%N in H2, Hx. rewrite N.add_0_r in H2, Hx.
    cbn [Reference.b64_encode Reference.b64_decode].
    rewrite ?b64_index_char by done. cbn [mbind option_bind].
    rewrite !Ascii.eqb_refl, Hx. by rewrite ascii_N_embedding.
  - pose proof (N_ascii_bounded a) as Ha. pose proof (N_ascii_bounded b) as Hb.
    destruct (b64_groups (N_of_ascii a) (N_of_ascii b) 0 Ha Hb)
      as (H1 & H2 & H3 & _ & Hx & Hy & _); [lia|].
    change (0 / 64)%N with 0%N in H3, Hy. rewrite N.add_0_r in H3, Hy.
    cbn [Reference.b64_encode Reference.b64_decode].
    rewrite ?b64_index_char by done. cbn [mbind option_bind].
    rewrite Ascii.eqb_refl, (b64_char_not_pad _ H3).
    rewrite ?b64_index_char by done. cbn [mbind option_bind].
    rewrite Hx, Hy. by rewrite !ascii_N_embedding.
  - pose proof (N_ascii_bounded a) as Ha. pose proof (N_ascii_bounded b) as Hb.
    pose proof (N_ascii_bounded c) as Hc.
    destruct (b64_groups (N_of_ascii a) (N_of_ascii b) (N_of_ascii c) Ha Hb Hc)
      as (H1 & H2 & H3 & H4 & Hx & Hy & Hz).
    assert (Reference.b64_decode (Reference.b64_encode rest) = Some rest) as Hrest
      by (apply IH; cbn in Hlen; lia).
    cbn [Reference.b64_encode Reference.b64_decode].
    rewrite ?b64_index_char by done. cbn [mbind option_bind].
    destruct rest as [|d rest'].
    + cbn [Reference.b64_encode]. rewrite (b64_char_not_pad _ H4).
      rewrite ?b64_index_char by done. cbn [mbind option_bind].
      rewrite Hx, Hy, Hz. by rewrite !ascii_N_embedding.
    + destruct (Reference.b64_encode (d :: rest')) as [|e encoded] eqn:Hencoded.
      { by destruct rest' as [|? [|? ?]]. }
      rewrite ?b64_index_char by done. cbn [mbind option_bind].
      rewrite Hrest. cbn [mbind option_bind].
      rewrite Hx, Hy, Hz. by rewrite !ascii_N_embedding.
Qed.

(** Decoding what was encoded gives the bytes back. *)
Lemma Base64Decode_Base64Encode (bytes : string) :
  Reference.Base64Decode (Reference.Base64Encode bytes) = Some bytes.
Proof.
  unfold Reference.Base64Decode, Reference.Base64Encode.
  rewrite list_ascii_of_string_of_list_ascii.
  rewrite (b64_decode_encode_bounded _ _ (Nat.le_refl _)). cbn.
  by rewrite string_of_list_ascii_of_string.
Qed.

(** ** Extraction on wire documents *)

(** C1, counterexample.  A license whose second entry has no [key]: the
    extraction fails, and the map, empty before, is left with the key of
    the first entry alone. *)
Lemma ExtractEncryptionKey_partial_commit :
  @ExtractEncryptionKey Reference.release Reference.key_source
    (Reference.license_text Reference.license_with_broken_second_track) ∅
  = Returned (false, false, {[ TRACK_TYPE_SD := Reference.sd_key ]})
  /\ ({[ TRACK_TYPE_SD := Reference.sd_key ]} : gmap TrackType EncryptionKey) ≠ ∅
  /\ ({[ TRACK_TYPE_SD := Reference.sd_key ]} : gmap TrackType EncryptionKey)
       !! TRACK_TYPE_HD = None.
Proof.
  split; [vm_compute; reflexivity|]. split; [|reflexivity].
  apply insert_non_empty.
Qed.

Lemma ExtractEncryptionKey_commits_entry_by_entry_witness :
  @ExtractEncryptionKey Reference.release Reference.key_source
    (Reference.license_text Reference.license_with_broken_second_track) ∅
  = Returned (false, false, {[ TRACK_TYPE_SD := Reference.sd_key ]})
  /\ exists committed : list Value,
       (∅ : gmap TrackType EncryptionKey) ⊆ {[ TRACK_TYPE_SD := Reference.sd_key ]}
       /\ size ({[ TRACK_TYPE_SD := Reference.sd_key ]}
                : gmap TrackType EncryptionKey)
          = (size (∅ : gmap TrackType EncryptionKey) + length committed)%nat
       /\ (forall track_type k,
             ({[ TRACK_TYPE_SD := Reference.sd_key ]}
              : gmap TrackType EncryptionKey) !! track_type = Some k <->
             (∅ : gmap TrackType EncryptionKey) !! track_type = Some k
             \/ exists track,
                  track ∈ committed
                  /\ @track_yields Reference.release Reference.key_source
                       track track_type k)
       /\ (committed = []
           -> ({[ TRACK_TYPE_SD := Reference.sd_key ]}
               : gmap TrackType EncryptionKey) = ∅)
       /\ ((committed = []
            /\ (@license_defect Reference.release
                  (Reference.license_text
                     Reference.license_with_broken_second_track)
                \/ exists status,
                     @license_status_of Reference.release
                       (Reference.license_text
                          Reference.license_with_broken_second_track) status
                     /\ status <> kLicenseStatusOK))
           \/ exists license_dict refused rest,
                Reference.JSONReader_Read
                  (Reference.license_text
                     Reference.license_with_broken_second_track)
                = Some (DictionaryValue license_dict)
                /\ base.GetString license_dict "status" = Some kLicenseStatusOK
                /\ base.GetList license_dict "tracks"
                   = Some (committed ++ refused :: rest)
                /\ (3 <= length (committed ++ refused :: rest))%nat
                /\ @ExtractEncryptionKey_tracks Reference.release
                     Reference.key_source committed ∅
                   = Returned (true, {[ TRACK_TYPE_SD := Reference.sd_key ]})
                /\ @ExtractEncryptionKey_track Reference.release
                     Reference.key_source refused
                     {[ TRACK_TYPE_SD := Reference.sd_key ]}
                   = Returned None).
Proof.
  assert (@ExtractEncryptionKey Reference.release Reference.key_source
            (Reference.license_text Reference.license_with_broken_second_track) ∅
          = Returned (false, false, {[ TRACK_TYPE_SD := Reference.sd_key ]}))
    as Hcall by (vm_compute; reflexivity).
  split; [exact Hcall|].
  exact (@ExtractEncryptionKey_commits_entry_by_entry
           Reference.release Reference.key_source _ _ _ _ _ Hcall).
Defined.

(** The same on a valid license: all three keys. *)
Lemma ExtractEncryptionKey_valid_license :
  @ExtractEncryptionKey Reference.release Reference.key_source
    (Reference.license_text Reference.valid_license) ∅
  = Returned (true, false, Reference.valid_keys)
  /\ @ExtractEncryptionKey Reference.debug Reference.key_source
       (Reference.license_text Reference.valid_license) ∅
     = Returned (true, false, Reference.valid_keys).
Proof. split; vm_compute; reflexivity. Qed.

Lemma ExtractEncryptionKey_debug_success_witness :
  dom Reference.valid_keys
  = {[TRACK_TYPE_SD; TRACK_TYPE_HD; TRACK_TYPE_AUDIO]}.
Proof.
  apply (@ExtractEncryptionKey_debug_success Reference.debug
           Reference.key_source
           (Reference.license_text Reference.valid_license) false).
  - reflexivity.
  - vm_compute; reflexivity.
Defined.

Lemma ExtractEncryptionKey_duplicate_type_witness :
  match @ExtractEncryptionKey Reference.release Reference.key_source
          (Reference.license_text
             (Reference.license_dict "OK"
                [Reference.sd_track; Reference.sd_track;
                 Reference.audio_track])) ∅ with
  | Returned (extracted, transient_error, _) =>
    extracted = false /\ transient_error = false
  | DcheckFailed => @DCHECK_IS_ON Reference.release = true
  end.
Proof.
  apply (@ExtractEncryptionKey_duplicate_type
           Reference.release Reference.key_source _
           (Reference.license_dict "OK"
              [Reference.sd_track; Reference.sd_track; Reference.audio_track])
           (Reference.track_dict "SD" "sd-key-0123456." "sd-key-id"
              [DictionaryValue (Reference.pssh_dict "WIDEVINE" "sd-pssh")])
           (Reference.track_dict "SD" "sd-key-0123456." "sd-key-id"
              [DictionaryValue (Reference.pssh_dict "WIDEVINE" "sd-pssh")])
           [] [] [Reference.audio_track] "SD");
    vm_compute; reflexivity.
Defined.

(** C3, the code at the failing input.  A license whose third entry has the
    label [UHD]: without assertions the extraction succeeds, with a key
    under [TRACK_TYPE_UNKNOWN] and none for audio, and the fetch returns
    [OK]; with assertions the process stops at the assertion. *)
Lemma ExtractEncryptionKey_unmapped_label_not_refused :
  @ExtractEncryptionKey Reference.release Reference.key_source
    (Reference.license_text Reference.license_with_unmapped_label) ∅
  = Returned (true, false,
              {[ TRACK_TYPE_SD := Reference.sd_key;
                 TRACK_TYPE_HD := Reference.hd_key;
                 TRACK_TYPE_UNKNOWN := Reference.uhd_key ]})
  /\ match @FetchKeys Reference.release Reference.key_source Reference.signer
             (Reference.scripted
                [Reference.reply_with Reference.license_with_unmapped_label])
             Reference.fresh_source initial_world with
     | Returned (status, _, w) => status = Status.OK /\ length (posts w) = 1%nat
     | DcheckFailed => False
     end
  /\ @ExtractEncryptionKey Reference.debug Reference.key_source
       (Reference.license_text Reference.license_with_unmapped_label) ∅
     = DcheckFailed.
Proof.
  split; [vm_compute; reflexivity|]. split; [|vm_compute; reflexivity].
  vm_compute. split; reflexivity.
Qed.

(** The spec's example of a duplicate: two entries typed [SD]. *)
Lemma ExtractEncryptionKey_two_SD_entries :
  @ExtractEncryptionKey Reference.release Reference.key_source
    (Reference.license_text
       (Reference.license_dict "OK"
          [Reference.sd_track; Reference.sd_track; Reference.audio_track])) ∅
  = Returned (false, false, {[ TRACK_TYPE_SD := Reference.sd_key ]}).
Proof. vm_compute; reflexivity. Qed.

(** C5, counterexample.  A track entry with two pssh entries, the first for
    Widevine: without assertions the extraction succeeds and uses the
    first. *)
Lemma ExtractEncryptionKey_two_pssh_entries_accepted :
  base.GetList Reference.sd_track_dict_with_two_pssh_entries "pssh"
  = Some [DictionaryValue (Reference.pssh_dict "WIDEVINE" "sd-pssh");
          DictionaryValue (Reference.pssh_dict "OTHER" "other-pssh")]
  /\ @ExtractEncryptionKey Reference.release Reference.key_source
       (Reference.license_text Reference.license_with_two_pssh_entries) ∅
     = Returned (true, false, Reference.valid_keys).
Proof. split; vm_compute; reflexivity. Qed.

Lemma ExtractEncryptionKey_pssh_defect_is_fatal_witness :
  match @ExtractEncryptionKey Reference.release Reference.key_source
          (Reference.license_text Reference.license_with_other_drm_type) ∅ with
  | Returned (extracted, transient_error, _) =>
    extracted = false /\ transient_error = false
  | DcheckFailed => @DCHECK_IS_ON Reference.release = true
  end.
Proof.
  apply (@ExtractEncryptionKey_pssh_defect_is_fatal
           Reference.release Reference.key_source
           (Reference.license_text Reference.license_with_other_drm_type)
           Reference.license_with_other_drm_type
           Reference.sd_track_dict_with_other_drm_type
           [DictionaryValue Reference.sd_track_dict_with_other_drm_type;
            Reference.hd_track; Reference.audio_track]).
  - vm_compute; reflexivity.
  - vm_compute; reflexivity.
  - vm_compute; reflexivity.
  - apply list_elem_of_here.
  - apply (@pssh_drm_type_other Reference.release _
             (Reference.pssh_dict "OTHER" "sd-pssh") [] "OTHER").
    + vm_compute; reflexivity.
    + vm_compute; reflexivity.
    + discriminate.
Defined.

Lemma ExtractEncryptionKey_non_OK_status_witness :
  license_status_of (H := Reference.release)
    (Reference.license_text Reference.transient_license) "INTERNAL_ERROR"
  /\ "INTERNAL_ERROR" <> kLicenseStatusOK
  /\ exists transient_error,
       @ExtractEncryptionKey Reference.release Reference.key_source
         (Reference.license_text Reference.transient_license) Reference.valid_keys
       = Returned (false, transient_error, Reference.valid_keys)
       /\ (transient_error = true
           <-> "INTERNAL_ERROR" = kLicenseStatusTransientError).
Proof.
  assert (license_status_of (H := Reference.release)
            (Reference.license_text Reference.transient_license)
            "INTERNAL_ERROR") as Hlicense.
  { exists Reference.transient_license. split; vm_compute; reflexivity. }
  assert ("INTERNAL_ERROR" <> kLicenseStatusOK) as Hne by discriminate.
  split; [exact Hlicense|]. split; [exact Hne|].
  exact (@ExtractEncryptionKey_non_OK_status Reference.release
           Reference.key_source _ _ Reference.valid_keys Hlicense Hne).
Defined.

(** ** Signing *)

Lemma SignRequest_request_field_decodes_to_signed_bytes_witness :
  let request :=
    @FillRequest Reference.release (content_id_ Reference.fresh_source) in
  exists signed_request,
    @SignRequest Reference.release Reference.signer request initial_world
    = (Status.OK, Some signed_request, record_signed request initial_world)
    /\ signed (record_signed request initial_world) = [request]
    /\ trace (record_signed request initial_world) = [Signed request]
    /\ exists signature envelope request_base64_string signature_base64_string,
         @GenerateSignature Reference.signer request = Some signature
         /\ Reference.JSONReader_Read signed_request
            = Some (DictionaryValue envelope)
         /\ base.GetString envelope "request" = Some request_base64_string
         /\ Reference.Base64Decode request_base64_string = Some request
         /\ base.GetString envelope "signature" = Some signature_base64_string
         /\ Reference.Base64Decode signature_base64_string = Some signature.
Proof.
  cbv zeta.
  pose (request := @FillRequest Reference.release
                     (content_id_ Reference.fresh_source)).
  pose (signature := "signature-of-" +:+ Reference.Base64Encode request).
  exists (Reference.JSONWriter_Write
            (DictionaryValue
               (@SignRequest_dict Reference.release Reference.signer
                  request signature))).
  assert (@SignRequest Reference.release Reference.signer request initial_world
          = (Status.OK,
             Some (Reference.JSONWriter_Write
                     (DictionaryValue
                        (@SignRequest_dict Reference.release Reference.signer
                           request signature))),
             record_signed request initial_world)) as Hcall by reflexivity.
  split; [exact Hcall|].
  destruct (@SignRequest_request_field_decodes_to_signed_bytes
              Reference.release Reference.signer request initial_world _ _ _
              Base64Decode_Base64Encode Hcall)
    as (_ & Hsigned & Htrace & _).
  split; [exact Hsigned|]. split; [exact Htrace|].
  exists signature,
         (@SignRequest_dict Reference.release Reference.signer request signature),
         (Reference.Base64Encode request), (Reference.Base64Encode signature).
  split; [reflexivity|].
  split; [vm_compute; reflexivity|].
  split; [vm_compute; reflexivity|].
  split; [apply Base64Decode_Base64Encode|].
  split; [vm_compute; reflexivity|]. apply Base64Decode_Base64Encode.
Defined.

(** ** The retry loop on scripted transports *)

Lemma transient_reply_reference :
  transient_reply (H := Reference.release)
    (Reference.reply_with Reference.transient_license).
Proof.
  split; [reflexivity|].
  exists (Reference.license_text Reference.transient_license).
  split; [vm_compute; reflexivity|].
  exists Reference.transient_license. split; vm_compute; reflexivity.
Qed.

Lemma FetchKeys_exhausts_retries_witness :
  exists w',
    @FetchKeys Reference.release Reference.key_source Reference.signer
      (Reference.constant (Reference.reply_with Reference.transient_license))
      Reference.fresh_source initial_world
    = Returned (MkStatus error.SERVER_ERROR
                  "Failed to recover from server internal error.",
                Reference.fresh_source, w')
    /\ length (posts w') = 5%nat
    /\ sleeps w' = [1000; 2000; 4000; 8000]
    /\ trace w'
       = [Signed Reference.request;
          Posted "https://license.example/getkey" Reference.message;
          Slept 1000;
          Posted "https://license.example/getkey" Reference.message;
          Slept 2000;
          Posted "https://license.example/getkey" Reference.message;
          Slept 4000;
          Posted "https://license.example/getkey" Reference.message;
          Slept 8000;
          Posted "https://license.example/getkey" Reference.message].
Proof.
  destruct (@FetchKeys_exhausts_retries
              Reference.release Reference.key_source Reference.signer
              (Reference.constant (Reference.reply_with Reference.transient_license))
              Reference.fresh_source initial_world _ eq_refl
              (fun _ _ _ => transient_reply_reference))
    as (w' & Hcall & Hposts & Hsleeps & Htrace).
  exists w'. split; [exact Hcall|]. split; [by rewrite Hposts|].
  split; [exact Hsleeps|exact Htrace].
Defined.

(** Two transient replies, then a reply whose [response] is not Base64:
    three posts, the two sleeps made before the third, an error. *)
Lemma FetchKeys_broken_reply_is_fatal_witness :
  exists status w',
    @FetchKeys Reference.release Reference.key_source Reference.signer
      (Reference.scripted
         [Reference.reply_with Reference.transient_license;
          Reference.reply_with Reference.transient_license;
          Reference.undecodable_reply;
          Reference.reply_with Reference.valid_license])
      Reference.fresh_source initial_world
    = Returned (status, Reference.fresh_source, w')
    /\ Status.ok status = false
    /\ length (posts w') = 3%nat
    /\ sleeps w' = [1000; 2000].
Proof.
  destruct (@FetchKeys_broken_reply_is_fatal
              Reference.release Reference.key_source Reference.signer
              (Reference.scripted
                 [Reference.reply_with Reference.transient_license;
                  Reference.reply_with Reference.transient_license;
                  Reference.undecodable_reply;
                  Reference.reply_with Reference.valid_license])
              Reference.fresh_source initial_world _ 2%nat eq_refl)
    as (status & w' & Hcall & Hok & _ & Hposts & Hsleeps & _).
  - lia.
  - intros [|[|j]] Hj; [apply transient_reply_reference..|lia].
  - right. vm_compute; reflexivity.
  - exists status, w'. split; [exact Hcall|]. split; [exact Hok|].
    split; [by rewrite Hposts|exact Hsleeps].
Defined.

(** ** The key lookup on scripted transports *)



(** A failed fetch is not remembered either way: the object is as it
    was. *)
Lemma GetKey_after_transport_failure :
  @GetKey Reference.release Reference.key_source Reference.signer
    (Reference.scripted [Reference.transport_failure])
    TRACK_TYPE_SD Reference.fresh_source initial_world
  = Returned (Reference.transport_failure.1, [], Reference.fresh_source,
              Reference.world_after 1 1).
Proof. vm_compute; reflexivity. Qed.

Lemma GetKey_assigns_key_only_on_success_witness :
  @GetKey Reference.release Reference.key_source Reference.signer
    (Reference.scripted [Reference.reply_with Reference.valid_license])
    TRACK_TYPE_SD Reference.fresh_source initial_world
  = Returned (Status.OK, [Reference.sd_key], Reference.fetched_source,
              Reference.world_after 1 1)
  /\ exists k,
       encryption_key_map_ Reference.fetched_source !! TRACK_TYPE_SD = Some k
       /\ [Reference.sd_key] = [k]
       /\ key_after Reference.hd_key [Reference.sd_key] = k.
Proof.
  assert (@GetKey Reference.release Reference.key_source Reference.signer
            (Reference.scripted [Reference.reply_with Reference.valid_license])
            TRACK_TYPE_SD Reference.fresh_source initial_world
          = Returned (Status.OK, [Reference.sd_key], Reference.fetched_source,
                      Reference.world_after 1 1)) as Hcall
    by (vm_compute; reflexivity).
  split; [exact Hcall|].
  exact (@GetKey_assigns_key_only_on_success
           Reference.release Reference.key_source Reference.signer
           (Reference.scripted [Reference.reply_with Reference.valid_license])
           TRACK_TYPE_SD Reference.fresh_source Reference.fetched_source
           initial_world (Reference.world_after 1 1) Status.OK
           [Reference.sd_key] Reference.hd_key Hcall).
Defined.

Lemma GetKey_key_not_found_witness :
  match @GetKey Reference.release Reference.key_source Reference.signer
          (Reference.scripted []) TRACK_TYPE_AUDIO
          (MkSource "https://license.example/getkey" "content-1" true
             {[ TRACK_TYPE_SD := Reference.sd_key;
                TRACK_TYPE_HD := Reference.hd_key ]})
          initial_world with
  | Returned r =>
    r = (MkStatus error.INTERNAL_ERROR "Cannot find key of type AUDIO", [],
         MkSource "https://license.example/getkey" "content-1" true
           {[ TRACK_TYPE_SD := Reference.sd_key;
              TRACK_TYPE_HD := Reference.hd_key ]},
         initial_world)
  | DcheckFailed => @DCHECK_IS_ON Reference.release = true
  end.
Proof.
  apply (@GetKey_key_not_found Reference.release Reference.key_source
           Reference.signer (Reference.scripted []) TRACK_TYPE_AUDIO
           (MkSource "https://license.example/getkey" "content-1" true
              {[ TRACK_TYPE_SD := Reference.sd_key;
                 TRACK_TYPE_HD := Reference.hd_key ]})
           initial_world); reflexivity.
Defined.

(** Four transient replies and then a valid license: the fifth attempt
    succeeds, after sleeps of 1000, 2000, 4000 and 8000 milliseconds. *)
Lemma FetchKeys_succeeds_after_transient_replies_witness :
  exists w',
    @FetchKeys Reference.release Reference.key_source Reference.signer
      (Reference.scripted
         [Reference.reply_with Reference.transient_license;
          Reference.reply_with Reference.transient_license;
          Reference.reply_with Reference.transient_license;
          Reference.reply_with Reference.transient_license;
          Reference.reply_with Reference.valid_license])
      Reference.fresh_source initial_world
    = Returned (Status.OK,
                set_encryption_key_map Reference.valid_keys Reference.fresh_source,
                w')
    /\ length (posts w') = 5%nat
    /\ sleeps w' = [1000; 2000; 4000; 8000].
Proof.
  destruct (@FetchKeys_succeeds_after_transient_replies
              Reference.release Reference.key_source Reference.signer
              (Reference.scripted
                 [Reference.reply_with Reference.transient_license;
                  Reference.reply_with Reference.transient_license;
                  Reference.reply_with Reference.transient_license;
                  Reference.reply_with Reference.transient_license;
                  Reference.reply_with Reference.valid_license])
              Reference.fresh_source initial_world _ 4%nat
              (Reference.license_text Reference.valid_license) false
              Reference.valid_keys eq_refl)
    as (w' & Hcall & Hposts & Hsleeps & _).
  - lia.
  - intros [|[|[|[|j]]]] Hj; [apply transient_reply_reference..|lia].
  - reflexivity.
  - vm_compute; reflexivity.
  - vm_compute; reflexivity.
  - exists w'. split; [exact Hcall|]. split; [by rewrite Hposts|exact Hsleeps].
Defined.

(** A signer that cannot sign: an internal error, and no post. *)
Lemma FetchKeys_signer_failure_witness :
  @FetchKeys Reference.release Reference.key_source Reference.failing_signer
    (Reference.scripted [Reference.reply_with Reference.valid_license])
    Reference.fresh_source initial_world
  = Returned (MkStatus error.INTERNAL_ERROR "Signature generation failed.",
              Reference.fresh_source, Reference.world_after 0 1).
Proof.
  exact (@FetchKeys_signer_failure Reference.release Reference.key_source
           Reference.failing_signer
           (Reference.scripted [Reference.reply_with Reference.valid_license])
           Reference.fresh_source initial_world eq_refl).
Defined.

(** ** More of the code on wire documents *)

(** A license with two tracks is refused and nothing is stored. *)
Lemma ExtractEncryptionKey_license_defect_witness :
  @ExtractEncryptionKey Reference.release Reference.key_source
    (Reference.license_text Reference.license_with_two_tracks) ∅
  = Returned (false, false, ∅).
Proof.
  apply (@ExtractEncryptionKey_license_defect Reference.release
           Reference.key_source).
  apply (@license_tracks_too_few Reference.release _
           Reference.license_with_two_tracks
           [Reference.sd_track; Reference.hd_track]).
  - vm_compute; reflexivity.
  - vm_compute; reflexivity.
  - vm_compute; reflexivity.
  - cbn. lia.
Defined.

(** The second entry has no [key]. *)
Lemma ExtractEncryptionKey_track_defect_is_fatal_witness :
  match @ExtractEncryptionKey Reference.release Reference.key_source
          (Reference.license_text Reference.license_with_broken_second_track)
          ∅ with
  | Returned (extracted, transient_error, _) =>
    extracted = false /\ transient_error = false
  | DcheckFailed => @DCHECK_IS_ON Reference.release = true
  end.
Proof.
  apply (@ExtractEncryptionKey_track_defect_is_fatal
           Reference.release Reference.key_source _
           Reference.license_with_broken_second_track
           [Reference.sd_track; Reference.hd_track_without_key;
            Reference.audio_track]
           Reference.hd_track_without_key).
  - vm_compute; reflexivity.
  - vm_compute; reflexivity.
  - vm_compute; reflexivity.
  - apply list_elem_of_further, list_elem_of_here.
  - eapply (@track_key_missing Reference.release); [reflexivity|].
    vm_compute; reflexivity.
Defined.

Lemma ExtractEncryptionKey_transient_only_on_status_witness :
  @ExtractEncryptionKey Reference.release Reference.key_source
    (Reference.license_text Reference.transient_license) Reference.partial_keys
  = Returned (false, true, Reference.partial_keys)
  /\ false = false
  /\ Reference.partial_keys = Reference.partial_keys
  /\ @license_status_of Reference.release
       (Reference.license_text Reference.transient_license)
       kLicenseStatusTransientError.
Proof.
  assert (@ExtractEncryptionKey Reference.release Reference.key_source
            (Reference.license_text Reference.transient_license)
            Reference.partial_keys
          = Returned (false, true, Reference.partial_keys)) as Hcall
    by (vm_compute; reflexivity).
  split; [exact Hcall|].
  exact (@ExtractEncryptionKey_transient_only_on_status
           Reference.release Reference.key_source _ _ _ _ Hcall).
Defined.

(** Two transient replies and then a valid license. *)
Lemma FetchKeys_two_transient_replies :
  @FetchKeys Reference.release Reference.key_source Reference.signer
    (Reference.scripted
       [Reference.reply_with Reference.transient_license;
        Reference.reply_with Reference.transient_license;
        Reference.reply_with Reference.valid_license])
    Reference.fresh_source initial_world
  = Returned (Status.OK,
              set_encryption_key_map Reference.valid_keys Reference.fresh_source,
              Reference.world_after_retries 3 [1000; 2000]).
Proof. vm_compute; reflexivity. Qed.

Lemma FetchKeys_posts_and_sleeps_witness :
  exists n body,
    (n <= 5)%nat
    /\ posts (Reference.world_after_retries 3 [1000; 2000])
       = posts initial_world
         ++ replicate n (server_url_ Reference.fresh_source, body)
    /\ sleeps (Reference.world_after_retries 3 [1000; 2000])
       = sleeps initial_world ++ take (n - 1) backoff_schedule
    /\ signed (Reference.world_after_retries 3 [1000; 2000])
       = signed initial_world
         ++ [@FillRequest Reference.release
               (content_id_ Reference.fresh_source)]
    /\ trace (Reference.world_after_retries 3 [1000; 2000])
       = trace initial_world
         ++ Signed (@FillRequest Reference.release
                      (content_id_ Reference.fresh_source))
            :: attempts n (server_url_ Reference.fresh_source) body
                 backoff_schedule
    /\ server_url_
         (set_encryption_key_map Reference.valid_keys Reference.fresh_source)
       = server_url_ Reference.fresh_source
    /\ content_id_
         (set_encryption_key_map Reference.valid_keys Reference.fresh_source)
       = content_id_ Reference.fresh_source
    /\ key_fetched_
         (set_encryption_key_map Reference.valid_keys Reference.fresh_source)
       = key_fetched_ Reference.fresh_source.
Proof.
  exact (@FetchKeys_posts_and_sleeps
           Reference.release Reference.key_source Reference.signer
           (Reference.scripted
              [Reference.reply_with Reference.transient_license;
               Reference.reply_with Reference.transient_license;
               Reference.reply_with Reference.valid_license])
           _ _ _ _ _ FetchKeys_two_transient_replies).
Defined.

Lemma FetchKeys_OK_only_if_extracted_witness :
  (exists signature k response transient_error,
     @GenerateSignature Reference.signer
       (@FillRequest Reference.release (content_id_ Reference.fresh_source))
     = Some signature
     /\ (k < 5)%nat
     /\ (forall j, (j < k)%nat ->
           @transient_reply Reference.release
             (@Post (Reference.scripted
                       [Reference.reply_with Reference.transient_license;
                        Reference.reply_with Reference.transient_license;
                        Reference.reply_with Reference.valid_license])
                (length (posts initial_world) + j)
                (server_url_ Reference.fresh_source)
                (@signed_message Reference.release Reference.signer
                   Reference.fresh_source signature)))
     /\ Status.ok
          (@Post (Reference.scripted
                    [Reference.reply_with Reference.transient_license;
                     Reference.reply_with Reference.transient_license;
                     Reference.reply_with Reference.valid_license])
             (length (posts initial_world) + k)
             (server_url_ Reference.fresh_source)
             (@signed_message Reference.release Reference.signer
                Reference.fresh_source signature)).1 = true
     /\ @DecodeResponse Reference.release
          (@Post (Reference.scripted
                    [Reference.reply_with Reference.transient_license;
                     Reference.reply_with Reference.transient_license;
                     Reference.reply_with Reference.valid_license])
             (length (posts initial_world) + k)
             (server_url_ Reference.fresh_source)
             (@signed_message Reference.release Reference.signer
                Reference.fresh_source signature)).2 = Some response
     /\ @ExtractEncryptionKey Reference.release Reference.key_source response
          (encryption_key_map_ Reference.fresh_source)
        = Returned (true, transient_error,
                    encryption_key_map_
                      (set_encryption_key_map Reference.valid_keys
                         Reference.fresh_source)))
  /\ encryption_key_map_ Reference.fresh_source
     ⊆ encryption_key_map_
         (set_encryption_key_map Reference.valid_keys Reference.fresh_source)
  /\ (size (encryption_key_map_ Reference.fresh_source) + 3
      <= size (encryption_key_map_
                 (set_encryption_key_map Reference.valid_keys
                    Reference.fresh_source)))%nat.
Proof.
  exact (@FetchKeys_OK_only_if_extracted
           Reference.release Reference.key_source Reference.signer
           (Reference.scripted
              [Reference.reply_with Reference.transient_license;
               Reference.reply_with Reference.transient_license;
               Reference.reply_with Reference.valid_license])
           _ _ _ _ _ FetchKeys_two_transient_replies eq_refl).
Defined.

(** One transient reply, then a license whose second entry has no key:
    two posts, one sleep, the error that quotes the license, and the key
    of the first entry left in the map. *)
Lemma FetchKeys_refused_license_is_fatal_witness :
  exists w',
    @FetchKeys Reference.release Reference.key_source Reference.signer
      (Reference.scripted
         [Reference.reply_with Reference.transient_license;
          Reference.reply_with Reference.license_with_broken_second_track;
          Reference.reply_with Reference.valid_license])
      Reference.fresh_source initial_world
    = Returned (MkStatus error.SERVER_ERROR
                  ("Failed to extract encryption key from '"
                     +:+ Reference.license_text
                           Reference.license_with_broken_second_track
                     +:+ "'."),
                set_encryption_key_map Reference.partial_keys
                  Reference.fresh_source, w')
    /\ length (posts w') = 2%nat
    /\ sleeps w' = [1000].
Proof.
  destruct (@FetchKeys_refused_license_is_fatal
              Reference.release Reference.key_source Reference.signer
              (Reference.scripted
                 [Reference.reply_with Reference.transient_license;
                  Reference.reply_with
                    Reference.license_with_broken_second_track;
                  Reference.reply_with Reference.valid_license])
              Reference.fresh_source initial_world _ 1%nat
              (Reference.license_text
                 Reference.license_with_broken_second_track)
              Reference.partial_keys eq_refl)
    as (w' & Hcall & Hposts & Hsleeps & _).
  - lia.
  - intros [|j] Hj; [apply transient_reply_reference|lia].
  - reflexivity.
  - vm_compute; reflexivity.
  - vm_compute; reflexivity.
  - exists w'. split; [exact Hcall|]. split; [by rewrite Hposts|exact Hsleeps].
Defined.

(** A build without assertions and a license whose third entry has the
    label [UHD]: the first [GetKey], for the audio key, finds none, and
    yet the object is marked as fetched. *)
Lemma GetKey_first_call_fetches_witness :
  @GetKey Reference.release Reference.key_source Reference.signer
    (Reference.scripted
       [Reference.reply_with Reference.transient_license;
        Reference.reply_with Reference.license_with_unmapped_label])
    TRACK_TYPE_AUDIO Reference.fresh_source initial_world
  = Returned
      (MkStatus error.INTERNAL_ERROR "Cannot find key of type AUDIO", [],
       MkSource "https://license.example/getkey" "content-1" true
         Reference.keys_with_unmapped_label,
       Reference.world_after_retries 2 [1000]).
Proof.
  pose proof (@GetKey_first_call_fetches
                Reference.release Reference.key_source Reference.signer
                (Reference.scripted
                   [Reference.reply_with Reference.transient_license;
                    Reference.reply_with Reference.license_with_unmapped_label])
                TRACK_TYPE_AUDIO Reference.fresh_source initial_world
                ("signature-of-" +:+ Reference.Base64Encode Reference.request)
                1%nat
                (Reference.license_text Reference.license_with_unmapped_label)
                false Reference.keys_with_unmapped_label) as Hcall.
  rewrite Hcall.
  - vm_compute; reflexivity.
  - right; right; reflexivity.
  - reflexivity.
  - reflexivity.
  - lia.
  - intros [|j] Hj; [apply transient_reply_reference|lia].
  - reflexivity.
  - vm_compute; reflexivity.
  - vm_compute; reflexivity.
Defined.

(** The map that a license with a broken second entry has left holds the
    key of the first entry: the valid license is refused from then on. *)
Lemma ExtractEncryptionKey_refuses_held_track_type_witness :
  match @ExtractEncryptionKey Reference.release Reference.key_source
          (Reference.license_text Reference.valid_license)
          Reference.partial_keys with
  | Returned (extracted, transient_error, _) =>
    extracted = false /\ transient_error = false
  | DcheckFailed => @DCHECK_IS_ON Reference.release = true
  end.
Proof.
  apply (@ExtractEncryptionKey_refuses_held_track_type
           Reference.release Reference.key_source _
           Reference.valid_license
           (Reference.track_dict "SD" "sd-key-0123456." "sd-key-id"
              [DictionaryValue (Reference.pssh_dict "WIDEVINE" "sd-pssh")])
           [Reference.sd_track; Reference.hd_track; Reference.audio_track]
           "SD").
  - vm_compute; reflexivity.
  - vm_compute; reflexivity.
  - vm_compute; reflexivity.
  - apply list_elem_of_here.
  - vm_compute; reflexivity.
  - exists Reference.sd_key. vm_compute; reflexivity.
Defined.

(** ** Objects a program can hold *)

(** The object after its first [GetKey], on a server that answers with
    the valid license, in a build without and with assertions. *)
Lemma reachable_fetched_source :
  @reachable Reference.release Reference.key_source Reference.signer
    (Reference.scripted [Reference.reply_with Reference.valid_license])
    Reference.fetched_source
  /\ @reachable Reference.debug Reference.key_source Reference.signer
       (Reference.scripted [Reference.reply_with Reference.valid_license])
       Reference.fetched_source.
Proof.
  split.
  - apply (@reachable_GetKey Reference.release Reference.key_source
             Reference.signer
             (Reference.scripted [Reference.reply_with Reference.valid_license])
             TRACK_TYPE_SD Reference.fresh_source initial_world Status.OK
             [Reference.sd_key] Reference.fetched_source
             (Reference.world_after 1 1)).
    + apply (@reachable_new Reference.release Reference.key_source
               Reference.signer
               (Reference.scripted
                  [Reference.reply_with Reference.valid_license])
               "https://license.example/getkey" "content-1").
    + vm_compute; reflexivity.
  - apply (@reachable_GetKey Reference.debug Reference.key_source
             Reference.signer
             (Reference.scripted [Reference.reply_with Reference.valid_license])
             TRACK_TYPE_SD Reference.fresh_source initial_world Status.OK
             [Reference.sd_key] Reference.fetched_source
             (Reference.world_after 1 1)).
    + apply (@reachable_new Reference.debug Reference.key_source
               Reference.signer
               (Reference.scripted
                  [Reference.reply_with Reference.valid_license])
               "https://license.example/getkey" "content-1").
    + vm_compute; reflexivity.
Qed.

Lemma reachable_fetched_holds_three_keys_witness :
  (3 <= size (encryption_key_map_ Reference.fetched_source))%nat.
Proof.
  exact (@reachable_fetched_holds_three_keys
           Reference.release Reference.key_source Reference.signer
           (Reference.scripted [Reference.reply_with Reference.valid_license])
           Reference.fetched_source (proj1 reachable_fetched_source) eq_refl).
Defined.

Lemma reachable_debug_fetched_holds_valid_track_types_witness :
  encryption_key_map_ Reference.fetched_source !! TRACK_TYPE_UNKNOWN = None
  /\ dom (encryption_key_map_ Reference.fetched_source)
     = {[TRACK_TYPE_SD; TRACK_TYPE_HD; TRACK_TYPE_AUDIO]}.
Proof.
  destruct (@reachable_debug_fetched_holds_valid_track_types
              Reference.debug Reference.key_source Reference.signer
              (Reference.scripted
                 [Reference.reply_with Reference.valid_license])
              Reference.fetched_source eq_refl
              (proj2 reachable_fetched_source)) as [Hknown Hdom].
  split; [exact Hknown|exact (Hdom eq_refl)].
Defined.

(** ** What goes on the wire *)

Lemma FetchKeys_posts_envelope_of_request_witness :
  "https://license.example/getkey" = server_url_ Reference.fresh_source
  /\ exists signature,
       @GenerateSignature Reference.signer
         (@JSONWriter_Write Reference.release
            (@request_document Reference.release
               (content_id_ Reference.fresh_source)))
       = Some signature
       /\ Reference.message
          = @JSONWriter_Write Reference.release
              (@envelope_document Reference.release Reference.signer
                 (@JSONWriter_Write Reference.release
                    (@request_document Reference.release
                       (content_id_ Reference.fresh_source)))
                 signature).
Proof.
  apply (@FetchKeys_posts_envelope_of_request
           Reference.release Reference.key_source Reference.signer
           (Reference.scripted
              [Reference.reply_with Reference.transient_license;
               Reference.reply_with Reference.transient_license;
               Reference.reply_with Reference.valid_license])
           _ _ _ _ _ _ _ FetchKeys_two_transient_replies).
  apply list_elem_of_here.
Defined.

(** ** A sequence of calls *)

(** A transport failure, then the valid license: two calls, two posts,
    two requests signed, no sleep. *)
Lemma GetKey_calls_after_transport_failure :
  @GetKey_calls Reference.release Reference.key_source Reference.signer
    (Reference.scripted
       [Reference.transport_failure;
        Reference.reply_with Reference.valid_license])
    [TRACK_TYPE_SD; TRACK_TYPE_HD] Reference.fresh_source initial_world
  = Returned ([Reference.transport_failure.1; Status.OK],
              Reference.fetched_source, Reference.world_after 2 2).
Proof. vm_compute; reflexivity. Qed.

Lemma GetKey_calls_stay_within_bounds_witness :
  length [Reference.transport_failure.1; Status.OK]
  = length [TRACK_TYPE_SD; TRACK_TYPE_HD]
  /\ server_url_ Reference.fetched_source = server_url_ Reference.fresh_source
  /\ content_id_ Reference.fetched_source = content_id_ Reference.fresh_source
  /\ encryption_key_map_ Reference.fresh_source
     ⊆ encryption_key_map_ Reference.fetched_source
  /\ (key_fetched_ Reference.fresh_source = true ->
      key_fetched_ Reference.fetched_source = true)
  /\ exists new_posts new_sleeps new_signed,
       posts (Reference.world_after 2 2) = posts initial_world ++ new_posts
       /\ sleeps (Reference.world_after 2 2)
          = sleeps initial_world ++ new_sleeps
       /\ signed (Reference.world_after 2 2)
          = signed initial_world ++ new_signed
       /\ (length new_posts <= 5 * length [TRACK_TYPE_SD; TRACK_TYPE_HD])%nat
       /\ (forall post, post ∈ new_posts ->
             post.1 = server_url_ Reference.fresh_source)
       /\ foldr Z.add 0 new_sleeps
          <= 15000 * Z.of_nat (length [TRACK_TYPE_SD; TRACK_TYPE_HD])
       /\ (length new_signed <= length [TRACK_TYPE_SD; TRACK_TYPE_HD])%nat
       /\ (forall request, request ∈ new_signed ->
             request
             = @FillRequest Reference.release
                 (content_id_ Reference.fresh_source)).
Proof.
  exact (@GetKey_calls_stay_within_bounds
           Reference.release Reference.key_source Reference.signer
           (Reference.scripted
              [Reference.transport_failure;
               Reference.reply_with Reference.valid_license])
           _ _ _ _ _ _ GetKey_calls_after_transport_failure).
Defined.
